(** * poststation-sdk: framing transport and typed RPC layer

    A shallow embedding of the client side of [poststation-sdk]
    ([tools/poststation-sdk/src/lib.rs]):
    - the COBS byte stuffing used by [TcpCommsTx::send_inner] and
      [TcpCommsRx::receive_inner] ([cobs::encode_vec] / [cobs::decode_vec]);
    - the receive loop of [TcpCommsRx] with its 1 MiB accumulator cap;
    - the connect paths with their ping handshake;
    - the typed RPC operations of [PoststationClient] and the stream
      listeners, over a daemon given as a record of reply functions. *)

From Stdlib Require Import String Ascii List Bool Arith Lia ZArith NArith.
From Stdlib Require Import Strings.Byte DecimalString.
Import ListNotations.
Open Scope list_scope.

(** ** Rust [Result] *)

Inductive Result (A E : Type) : Type :=
| Ok (a : A)
| Err (e : E).
Arguments Ok {A E} a.
Arguments Err {A E} e.

(** ** COBS ([cobs] crate, as called by the transport) *)

Module Cobs.

(** The overhead byte written for a block: [num_bt_sent] of the crate's
    [EncoderState], always in [1 ..= 255]. *)
Definition code_byte (n : nat) : byte :=
  match Byte.of_nat n with Some b => b | None => x00 end.

(** The COBS block stream, as the encoder lays it out when its buffer has
    room for every byte: [blk] is the current block of non-zero bytes (the
    bytes after the pending overhead byte). A zero closes the block with
    code [len + 1]; the 254th non-zero byte of a block closes it with code
    [0xFF] right away; the code of the last, possibly empty, block comes
    last. [encode_vec] below is the crate's encoder itself, which writes
    this stream into a buffer of [max_encoding_length] bytes
    ([encode_vec_eq]). *)
Fixpoint encode_go (blk : list byte) (data : list byte) : list byte :=
  match data with
  | [] => code_byte (length blk + 1) :: blk
  | x :: data' =>
      if Byte.eqb x x00 then code_byte (length blk + 1) :: blk ++ encode_go [] data'
      else if Nat.eqb (length blk + 1) 254
           then xff :: (blk ++ [x]) ++ encode_go [] data'
           else encode_go (blk ++ [x]) data'
  end.

(** [max_encoding_length]. *)
Definition max_encoding_length (source_len : nat) : nat :=
  source_len + source_len / 254 + (if 0 <? source_len mod 254 then 1 else 0).

(** [EncoderState]; [num_bt_sent] and [offset_idx] are [u8]s that never
    pass 255. *)
Record EncoderState : Type := {
  code_idx : nat;
  num_bt_sent : nat;
  offset_idx : nat
}.

(** [EncoderState::default]. *)
Definition encoder_state_default : EncoderState :=
  {| code_idx := 0; num_bt_sent := 1; offset_idx := 1 |}.

Inductive PushResult : Type :=
| AddSingle (y : byte)
| ModifyFromStartAndSkip (idx : nat) (mval : byte)
| ModifyFromStartAndPushAndSkip (idx : nat) (mval : byte) (nval1 : byte).

(** [EncoderState::push]. *)
Definition state_push (st : EncoderState) (data : byte) : PushResult * EncoderState :=
  if Byte.eqb data x00 then
    (ModifyFromStartAndSkip (code_idx st) (code_byte (num_bt_sent st)),
     {| code_idx := code_idx st + offset_idx st; num_bt_sent := 1; offset_idx := 1 |})
  else
    let num := num_bt_sent st + 1 in
    let off := offset_idx st + 1 in
    if Nat.eqb num 255 then
      (ModifyFromStartAndPushAndSkip (code_idx st) (code_byte num) data,
       {| code_idx := code_idx st + off; num_bt_sent := 1; offset_idx := 1 |})
    else
      (AddSingle data, {| code_idx := code_idx st; num_bt_sent := num; offset_idx := off |}).

(** [EncoderState::finalize]. *)
Definition state_finalize (st : EncoderState) : nat * byte :=
  (code_idx st, code_byte (num_bt_sent st)).

(** [*dest.get_mut(i).ok_or_else(|| ())? = v]: [None] is the [Err(())]
    of an index outside the buffer. *)
Definition set_at (dest : list byte) (i : nat) (v : byte) : option (list byte) :=
  if i <? length dest then Some (firstn i dest ++ v :: skipn (S i) dest) else None.

(** [CobsEncoder]: the output buffer, the next data index and the state. *)
Record CobsEncoder : Type := {
  dest : list byte;
  dest_idx : nat;
  state : EncoderState
}.

(** [CobsEncoder::new]. *)
Definition encoder_new (out_buf : list byte) : CobsEncoder :=
  {| dest := out_buf; dest_idx := 1; state := encoder_state_default |}.

(** One round of the loop of [CobsEncoder::push]. *)
Definition encoder_push_byte (e : CobsEncoder) (x : byte) : option CobsEncoder :=
  let (r, st') := state_push (state e) x in
  match r with
  | AddSingle y =>
      match set_at (dest e) (dest_idx e) y with
      | Some d => Some {| dest := d; dest_idx := dest_idx e + 1; state := st' |}
      | None => None
      end
  | ModifyFromStartAndSkip idx mval =>
      match set_at (dest e) idx mval with
      | Some d => Some {| dest := d; dest_idx := dest_idx e + 1; state := st' |}
      | None => None
      end
  | ModifyFromStartAndPushAndSkip idx mval nval1 =>
      match set_at (dest e) idx mval with
      | Some d1 =>
          match set_at d1 (dest_idx e) nval1 with
          | Some d2 => Some {| dest := d2; dest_idx := dest_idx e + 1 + 1; state := st' |}
          | None => None
          end
      | None => None
      end
  end.

(** [CobsEncoder::push]. *)
Fixpoint encoder_push (e : CobsEncoder) (data : list byte) : option CobsEncoder :=
  match data with
  | [] => Some e
  | x :: data' =>
      match encoder_push_byte e x with
      | Some e' => encoder_push e' data'
      | None => None
      end
  end.

(** [CobsEncoder::finalize]: the buffer afterwards and the length. The
    last code byte is written only when its index is inside the buffer. *)
Definition encoder_finalize (e : CobsEncoder) : list byte * nat :=
  if Nat.eqb (dest_idx e) 1 then (dest e, 0)
  else
    let (idx, mval) := state_finalize (state e) in
    match set_at (dest e) idx mval with
    | Some d => (d, dest_idx e)
    | None => (dest e, dest_idx e)
    end.

(** [cobs::encode]: [None] is the panic of [enc.push(source).unwrap()]. *)
Definition encode (source out_buf : list byte) : option (list byte * nat) :=
  match encoder_push (encoder_new out_buf) source with
  | Some e => Some (encoder_finalize e)
  | None => None
  end.

(** [cobs::encode_vec]: encode into [vec![0; max_encoding_length(len)]]
    and [truncate] to the returned length ([firstn] keeps a shorter
    buffer whole, as [truncate] does). [encode] never panics on this
    buffer ([encode_fits]), so the last branch is never taken. *)
Definition encode_vec (source : list byte) : list byte :=
  match encode source (repeat x00 (max_encoding_length (length source))) with
  | Some (encoded, encoded_len) => firstn encoded_len encoded
  | None => []
  end.

(** [DecoderState] of the crate. *)
Inductive DecoderState : Type :=
| Idle
| Grab (i : nat)
| GrabChain (i : nat).

Inductive DecodeResult : Type :=
| NoData
| DataStart
| DataContinue (b : byte)
| DataComplete
| DecError.

(** [DecoderState::feed]. *)
Definition feed (st : DecoderState) (data : byte) : DecodeResult * DecoderState :=
  let n := Byte.to_nat data in
  match st with
  | Idle =>
      if Nat.eqb n 0 then (NoData, Idle)
      else if Nat.eqb n 255 then (DataStart, Grab 254)
      else (DataStart, GrabChain (n - 1))
  | Grab 0 =>
      if Nat.eqb n 0 then (DataComplete, Idle)
      else if Nat.eqb n 255 then (NoData, Grab 254)
      else (NoData, GrabChain (n - 1))
  | Grab (S i) =>
      if Nat.eqb n 0 then (DecError, Idle)
      else (DataContinue data, Grab i)
  | GrabChain 0 =>
      if Nat.eqb n 0 then (DataComplete, Idle)
      else if Nat.eqb n 255 then (DataContinue x00, Grab 254)
      else (DataContinue x00, GrabChain (n - 1))
  | GrabChain (S i) =>
      if Nat.eqb n 0 then (DecError, Idle)
      else (DataContinue data, GrabChain i)
  end.

(** Outcome of [CobsDecoder::push]: a complete message, an error, or all
    input consumed with the decoder left in some state. The destination is
    kept reversed; it is [vec![0; source.len()]] in [decode_vec], and a
    decoder writes at most one byte per consumed byte after the first, so
    it never runs out of room. *)
Inductive PushOutcome : Type :=
| Complete (msg : list byte)
| Failed
| Pending (st : DecoderState) (dest : list byte).

Fixpoint push (st : DecoderState) (dest : list byte) (src : list byte) : PushOutcome :=
  match src with
  | [] => Pending st dest
  | d :: src' =>
      match feed st d with
      | (NoData, st') => push st' dest src'
      | (DataStart, st') => push st' [] src'
      | (DataContinue b, st') => push st' (b :: dest) src'
      | (DataComplete, _) => Complete (rev dest)
      | (DecError, _) => Failed
      end
  end.

(** [cobs::decode] / [cobs::decode_vec]: push the source; when it did not
    end in a zero, push an explicit zero sentinel. *)
Definition decode_vec (src : list byte) : option (list byte) :=
  match push Idle [] src with
  | Complete m => Some m
  | Failed => None
  | Pending st dest =>
      if Byte.eqb (last src x01) x00 then None
      else match push st dest [x00] with
           | Complete m => Some m
           | _ => None
           end
  end.

(** States between two blocks, and the destination right after the next
    overhead byte: a fresh message after [Idle], nothing added after a
    [0xFF] block, the implied zero after a shorter block. *)
Definition boundary (st : DecoderState) : Prop :=
  st = Idle \/ st = Grab 0 \/ st = GrabChain 0.

Definition enter (st : DecoderState) (dest : list byte) : list byte :=
  match st with
  | Idle => []
  | Grab _ => dest
  | GrabChain _ => x00 :: dest
  end.

Definition block_state (n : nat) : DecoderState :=
  if Nat.eqb n 255 then Grab 254 else GrabChain (n - 1).

End Cobs.

(** ** Transport: [TcpCommsTx] and [TcpCommsRx] *)

Module Transport.

(** [TcpCommsTx::send_inner]: the bytes handed to [write_all]. *)
Definition send_inner (data : list byte) : list byte :=
  Cobs.encode_vec data ++ [x00].

Inductive TcpCommsRxError : Type :=
| RxOverflow
| ConnError.

(** [1024 * 1024], the accumulator cap of [receive_inner]. *)
Definition rx_cap : N := 1024 * 1024.

(** [self.buf.iter().position(|b| *b == 0)]. *)
Fixpoint position_zero (l : list byte) : option nat :=
  match l with
  | [] => None
  | b :: l' => if Byte.eqb b x00 then Some 0 else option_map S (position_zero l')
  end.

(** The part of one iteration of the ['frame] loop that looks at the
    accumulator alone: either the loop returns (with the accumulator left
    behind), or it falls through to a read with the given accumulator. *)
Inductive Drain : Type :=
| Return (r : Result (list byte) TcpCommsRxError) (buf : list byte)
| NeedRead (buf : list byte).

(** The ['frame] loop as long as it does not read: check the cap; split
    at the first zero ([split_off] + [swap]); return a frame that decodes,
    go round the loop after one that does not. Each round removes at least
    one byte, so [S (length buf)] rounds always suffice ([rx_drain]). *)
Fixpoint drain_rounds (fuel : nat) (buf : list byte) : Drain :=
  match fuel with
  | O => NeedRead buf
  | S fuel' =>
      if (rx_cap <? N.of_nat (length buf))%N then Return (Err RxOverflow) []
      else match position_zero buf with
           | Some pos =>
               let split := firstn (S pos) buf in
               let buf' := skipn (S pos) buf in
               match Cobs.decode_vec split with
               | Some msg => Return (Ok msg) buf'
               | None => drain_rounds fuel' buf'
               end
           | None => NeedRead buf
           end
  end.

Definition rx_drain (buf : list byte) : Drain := drain_rounds (S (length buf)) buf.

(** [TcpCommsRx::receive_inner]. The socket is the list of results of the
    successive [self.rx.read(&mut rx_buf)] calls, each the bytes read into
    the 1024-byte [rx_buf]; an empty read, or the end of the list, is the
    end of the stream ([used == 0]). Returns the result, the accumulator
    [self.buf] afterwards and the reads not yet performed. *)
Fixpoint receive_inner (buf : list byte) (reads : list (list byte))
  : Result (list byte) TcpCommsRxError * list byte * list (list byte) :=
  match rx_drain buf with
  | Return r buf' => (r, buf', reads)
  | NeedRead buf' =>
      match reads with
      | [] => (Err ConnError, buf', [])
      | [] :: reads' => (Err ConnError, buf', reads')
      | chunk :: reads' => receive_inner (buf' ++ chunk) reads'
      end
  end.

(** [n] successive calls of [WireRx::receive] on one [TcpCommsRx]. *)
Fixpoint rx_run (n : nat) (buf : list byte) (reads : list (list byte))
  : list (Result (list byte) TcpCommsRxError) * list byte * list (list byte) :=
  match n with
  | O => ([], buf, reads)
  | S n' =>
      let '(r, buf', reads') := receive_inner buf reads in
      let '(rs, buf'', reads'') := rx_run n' buf' reads' in
      (r :: rs, buf'', reads'')
  end.

(** What a read into [rx_buf] can return without ending the stream. *)
Definition read_ok (chunk : list byte) : Prop :=
  chunk <> [] /\ length chunk <= 1024.

(** A frame fits when the accumulator holding a strict prefix of it plus
    one read of at most 1024 bytes stays within the cap. *)
Definition frame_fits (p : list byte) : Prop :=
  (N.of_nat (length (Cobs.encode_vec p)) + 1024 <= rx_cap)%N.

End Transport.

(** ** Wire types of [poststation-api-icd] and [postcard-rpc]

    Each Rust type is a module holding its type [t], so that variants and
    fields keep their Rust names ([ProxyResponse.Ok], [TopicRequest.path]).
    Keys are the 8 bytes of a [postcard_rpc::Key]; serial numbers, sequence
    numbers and uuids are unsigned integers. *)

Module Icd.

Definition Key := list byte.

Definition key_eqb (a b : Key) : bool :=
  if list_eq_dec Byte.byte_eq_dec a b then true else false.

Definition Uuidv7 := N.

Module TopicRequest.
Record t := { serial : N; path : string; key : Key; count : N }.
End TopicRequest.

Module TopicMsg.
Record t := { uuidv7 : Uuidv7; msg : list byte }.
End TopicMsg.

Module TopicStreamRequest.
Record t := { serial : N; path : string; key : Key }.
End TopicStreamRequest.

Module TopicStreamMsg.
Record t := { stream_id : Uuidv7; msg : list byte }.
End TopicStreamMsg.

Module TopicStreamResult.
Inductive t :=
| Started (id : Uuidv7)
| NoDeviceKnown
| DeviceDisconnected
| NoSuchTopic.
End TopicStreamResult.

(** [postcard_rpc::standard_icd::WireError]; the payload structs
    [FrameTooLong { len, max }] and [FrameTooShort { len }] are inlined. *)
Module WireError.
Inductive t :=
| FrameTooLong (len max : N)
| FrameTooShort (len : N)
| DeserFailed
| SerFailed
| UnknownKey
| FailedToSpawn
| KeyTooSmall.

Definition dec (n : N) : string := NilZero.string_of_uint (N.to_uint n).

(** The derived [Debug] rendering, as printed by [{body:?}]. *)
Definition debug (e : t) : string :=
  match e with
  | FrameTooLong len max =>
      "FrameTooLong(FrameTooLong { len: " ++ dec len ++ ", max: " ++ dec max ++ " })"
  | FrameTooShort len => "FrameTooShort(FrameTooShort { len: " ++ dec len ++ " })"
  | DeserFailed => "DeserFailed"
  | SerFailed => "SerFailed"
  | UnknownKey => "UnknownKey"
  | FailedToSpawn => "FailedToSpawn"
  | KeyTooSmall => "KeyTooSmall"
  end%string.
End WireError.

Module ProxyRequest.
Record t := {
  serial : N; path : string; req_key : Key; resp_key : Key;
  seq_no : N; req_body : list byte }.
End ProxyRequest.

Module ProxyResponse.
Inductive t :=
| Ok (resp_key : Key) (seq_no : N) (body : list byte)
| WireErr (resp_key : Key) (seq_no : N) (body : WireError.t)
| OtherErr (e : string).
End ProxyResponse.

Module PublishRequest.
Record t := {
  serial : N; path : string; topic_key : Key; seq_no : N; topic_body : list byte }.
End PublishRequest.

Module PublishResponse.
Inductive t :=
| Sent
| OtherErr (e : string).
End PublishResponse.

(** The parts of [postcard_rpc::host_client]'s reports the client reads;
    [NamedType] stands for [postcard_schema]'s owned schema tree. *)
Module TopicReport.
Record t {NamedType : Type} := { path : string; key : Key; ty : NamedType }.
Arguments t : clear implicits.
End TopicReport.

Module EndpointReport.
Record t {NamedType : Type} := {
  path : string; req_key : Key; resp_key : Key; req_ty : NamedType; resp_ty : NamedType }.
Arguments t : clear implicits.
End EndpointReport.

Module SchemaReport.
Record t {NamedType : Type} := {
  topics_in : list (TopicReport.t NamedType);
  topics_out : list (TopicReport.t NamedType);
  endpoints : list (EndpointReport.t NamedType) }.
Arguments t : clear implicits.
End SchemaReport.

(** [HostErr<WireError>]: what [HostClient::send_resp] fails with. *)
Module HostErr.
Inductive t :=
| Wire (e : WireError.t)
| BadResponse
| Postcard
| Closed.
End HostErr.

(** The requests a client puts on the wire, one per [send_resp] call:
    [PingEndpoint], [GetSchemasEndpoint], [GetTopicsEndpoint],
    [ProxyEndpoint], [PublishEndpoint] and [StartStreamEndpoint]. *)
Inductive Request :=
| RqPing (token : N)
| RqGetSchemas (serial : N)
| RqGetTopics (rq : TopicRequest.t)
| RqProxy (rq : ProxyRequest.t)
| RqPublish (rq : PublishRequest.t)
| RqStartStream (rq : TopicStreamRequest.t).

End Icd.

(** ** [PoststationClient]: the typed RPC operations and stream listeners *)

Module Client.
Import Icd.

Module ClientError.
Inductive t :=
| ConnectionClosed
| Protocol
| Encoding
| Server (s : string)
| Remote (s : string)
| Dynamic (s : string).
End ClientError.

(** [impl From<HostErr<WireError>> for ClientError]. *)
Definition from_host_err (e : HostErr.t) : ClientError.t :=
  match e with
  | HostErr.Wire _ => ClientError.Protocol
  | HostErr.BadResponse => ClientError.Protocol
  | HostErr.Postcard => ClientError.Encoding
  | HostErr.Closed => ClientError.ConnectionClosed
  end.

(** An operation of the client: its result and the requests it sent, in
    order. *)
Definition M (E A : Type) : Type := Result A E * list Request.

Definition ret {E A} (a : A) : M E A := (Ok a, []).
Definition throw {E A} (e : E) : M E A := (Err e, []).

Definition bind {E A B} (m : M E A) (k : A -> M E B) : M E B :=
  match m with
  | (Ok a, tr) => let (r, tr') := k a in (r, tr ++ tr')
  | (Err e, tr) => (Err e, tr)
  end.

Notation "'let*' x ':=' m 'in' k" := (bind m (fun x => k))
  (at level 200, x name, m at level 100, k at level 200).

(** [?] on a [HostErr]: convert with [from_host_err]. *)
Definition try_host {A} (m : M HostErr.t A) : M ClientError.t A :=
  match m with
  | (Ok a, tr) => (Ok a, tr)
  | (Err e, tr) => (Err (from_host_err e), tr)
  end.

(** Look at the result of an operation without propagating its error, as
    [let Ok(..) = .. else] does. *)
Definition attempt {E E' A} (m : M E A) : M E' (Result A E) :=
  let (r, tr) := m in (Ok r, tr).

Section Ops.

Context {NamedType Value : Type}.

(** The poststation server as the client sees it: the reply to each
    request, and whether a new fanout subscription can be registered
    ([subscribe_multi] fails only when the client is closed). *)
Record Daemon := {
  schemas_reply : N -> Result (option (SchemaReport.t NamedType)) HostErr.t;
  topics_reply : TopicRequest.t -> Result (option (list TopicMsg.t)) HostErr.t;
  proxy_reply : ProxyRequest.t -> Result ProxyResponse.t HostErr.t;
  publish_reply : PublishRequest.t -> Result PublishResponse.t HostErr.t;
  start_reply : TopicStreamRequest.t -> Result TopicStreamResult.t HostErr.t;
  subscribe_multi_ok : bool }.

(** [postcard_dyn]'s schema-directed codec; an error is given by its
    [Debug] rendering. *)
Record DynCodec := {
  to_stdvec_dyn : NamedType -> Value -> Result (list byte) string;
  from_slice_dyn : NamedType -> list byte -> Result Value string }.

(** An [Endpoint] with its [postcard] codec for the request and response. *)
Record Endpoint (Req Resp : Type) := {
  PATH : string; REQ_KEY : Key; RESP_KEY : Key;
  to_stdvec : Req -> option (list byte);
  from_bytes : list byte -> option Resp }.

(** A [Topic] with its [postcard] codec for the message. *)
Record Topic (Msg : Type) := {
  TPATH : string; TOPIC_KEY : Key;
  msg_from_bytes : list byte -> option Msg }.

Variable d : Daemon.
Variable codec : DynCodec.

Definition send_resp {A} (rq : Request) (reply : Result A HostErr.t) : M HostErr.t A :=
  (reply, [rq]).

Definition get_device_schemas (serial : N)
  : M ClientError.t (option (SchemaReport.t NamedType)) :=
  let* res := try_host (send_resp (RqGetSchemas serial) (schemas_reply d serial)) in
  ret res.

Definition get_device_topics_out_by_path_raw (serial : N) (path : string) (count : N)
  : M ClientError.t (option (list TopicMsg.t)) :=
  let* schemas := get_device_schemas serial in
  match schemas with
  | None => ret None
  | Some schemas =>
      let res := option_map TopicReport.key
        (find (fun t => String.eqb (TopicReport.path t) path) (SchemaReport.topics_out schemas)) in
      match res with
      | None => ret None
      | Some key =>
          let req := {| TopicRequest.serial := serial; TopicRequest.path := path;
                        TopicRequest.key := key; TopicRequest.count := count |} in
          try_host (send_resp (RqGetTopics req) (topics_reply d req))
      end
  end.

(** The [map] / [collect::<Result<Vec<_>, _>>] of the JSON variant: the
    first message that does not decode fails the whole collection. *)
Fixpoint collect_dyn (ty : NamedType) (raws : list TopicMsg.t)
  : Result (list (Uuidv7 * Value)) ClientError.t :=
  match raws with
  | [] => Ok []
  | tm :: raws' =>
      match from_slice_dyn codec ty (TopicMsg.msg tm) with
      | Err _ => Err ClientError.Encoding
      | Ok msg =>
          match collect_dyn ty raws' with
          | Ok res => Ok ((TopicMsg.uuidv7 tm, msg) :: res)
          | Err e => Err e
          end
      end
  end.

Definition get_device_topics_out_by_path_json (serial : N) (path : string) (count : N)
  : M ClientError.t (option (list (Uuidv7 * Value))) :=
  let* schemas := get_device_schemas serial in
  match schemas with
  | None => ret None
  | Some schemas =>
      match find (fun t => String.eqb (TopicReport.path t) path)
                 (SchemaReport.topics_out schemas) with
      | None => ret None
      | Some schema =>
          let req := {| TopicRequest.serial := serial; TopicRequest.path := path;
                        TopicRequest.key := TopicReport.key schema;
                        TopicRequest.count := count |} in
          let* raws := try_host (send_resp (RqGetTopics req) (topics_reply d req)) in
          match raws with
          | None => ret None
          | Some raws =>
              match collect_dyn (TopicReport.ty schema) raws with
              | Ok res => ret (Some res)
              | Err e => throw e
              end
          end
      end
  end.

(** The [match] on the proxied reply shared by both proxy operations
    (written out in each of them in the source). *)
Definition proxy_body (resp : ProxyResponse.t) : M ClientError.t (list byte) :=
  match resp with
  | ProxyResponse.Ok _ _ body => ret body
  | ProxyResponse.WireErr _ _ body =>
      throw (ClientError.Remote ("WireErr: " ++ WireError.debug body)%string)
  | ProxyResponse.OtherErr e =>
      throw (ClientError.Remote ("Other Server Err: '" ++ e ++ "'")%string)
  end.

(** [proxy_endpoint::<E>]. *)
Definition proxy_endpoint {Req Resp} (E : Endpoint Req Resp)
  (serial : N) (seq_no : N) (body : Req) : M ClientError.t Resp :=
  let* schemas := get_device_schemas serial in
  match schemas with
  | None => throw (ClientError.Server "endpoint not found")
  | Some schemas =>
      let res := find (fun e =>
          String.eqb (EndpointReport.path e) (PATH _ _ E)
          && key_eqb (EndpointReport.req_key e) (REQ_KEY _ _ E)
          && key_eqb (EndpointReport.resp_key e) (RESP_KEY _ _ E))
        (SchemaReport.endpoints schemas) in
      match res with
      | None => throw (ClientError.Server "endpoint not found")
      | Some schema =>
          match to_stdvec _ _ E body with
          | None => throw ClientError.Encoding
          | Some body =>
              let req := {| ProxyRequest.serial := serial;
                            ProxyRequest.path := EndpointReport.path schema;
                            ProxyRequest.req_key := EndpointReport.req_key schema;
                            ProxyRequest.resp_key := EndpointReport.resp_key schema;
                            ProxyRequest.seq_no := seq_no;
                            ProxyRequest.req_body := body |} in
              let* resp := try_host (send_resp (RqProxy req) (proxy_reply d req)) in
              let* resp := proxy_body resp in
              match from_bytes _ _ E resp with
              | Some v => ret v
              | None => throw ClientError.Encoding
              end
          end
      end
  end.

(** [proxy_endpoint_json]. *)
Definition proxy_endpoint_json (serial : N) (path : string) (seq_no : N) (body : Value)
  : M ClientError.t Value :=
  let* schemas := attempt (get_device_schemas serial) in
  match schemas with
  | Ok (Some schemas) =>
      match find (fun e => String.eqb (EndpointReport.path e) path)
                 (SchemaReport.endpoints schemas) with
      | None => throw (ClientError.Server "endpoint not found")
      | Some schema =>
          match to_stdvec_dyn codec (EndpointReport.req_ty schema) body with
          | Err _ => throw (ClientError.Dynamic
              "provided JSON does not match the expected schema for this endpoint")
          | Ok body =>
              let req := {| ProxyRequest.serial := serial;
                            ProxyRequest.path := EndpointReport.path schema;
                            ProxyRequest.req_key := EndpointReport.req_key schema;
                            ProxyRequest.resp_key := EndpointReport.resp_key schema;
                            ProxyRequest.seq_no := seq_no;
                            ProxyRequest.req_body := body |} in
              let* resp := try_host (send_resp (RqProxy req) (proxy_reply d req)) in
              let* resp := proxy_body resp in
              match from_slice_dyn codec (EndpointReport.resp_ty schema) resp with
              | Ok v => ret v
              | Err e => throw (ClientError.Dynamic ("Decode error: '" ++ e ++ "'")%string)
              end
          end
      end
  | _ => throw (ClientError.Server "endpoint not found")
  end.

(** The [match] on the publish reply. *)
Definition publish_result (resp : PublishResponse.t) : M ClientError.t unit :=
  match resp with
  | PublishResponse.Sent => ret tt
  | PublishResponse.OtherErr e => throw (ClientError.Server e)
  end.

(** [publish_topic_json]. *)
Definition publish_topic_json (serial : N) (path : string) (seq_no : N) (body : Value)
  : M ClientError.t unit :=
  let* schemas := attempt (get_device_schemas serial) in
  match schemas with
  | Ok (Some schemas) =>
      match find (fun e => String.eqb (TopicReport.path e) path)
                 (SchemaReport.topics_in schemas) with
      | None => throw (ClientError.Server "topic not found")
      | Some schema =>
          match to_stdvec_dyn codec (TopicReport.ty schema) body with
          | Err _ => throw (ClientError.Dynamic
              "provided JSON does not match the schema for this topic")
          | Ok body =>
              let req := {| PublishRequest.serial := serial;
                            PublishRequest.path := TopicReport.path schema;
                            PublishRequest.topic_key := TopicReport.key schema;
                            PublishRequest.seq_no := seq_no;
                            PublishRequest.topic_body := body |} in
              let* resp := try_host (send_resp (RqPublish req) (publish_reply d req)) in
              publish_result resp
          end
      end
  | _ => throw (ClientError.Server "topic not found")
  end.

(** [publish_topic::<T>]: the message encoder [postcard::to_stdvec] for
    [T::Message] is passed beside the [Topic]. *)
Definition publish_topic {Msg} (T : Topic Msg) (msg_to_stdvec : Msg -> option (list byte))
  (serial : N) (seq_no : N) (body : Msg) : M ClientError.t unit :=
  let* schemas := attempt (get_device_schemas serial) in
  match schemas with
  | Ok (Some schemas) =>
      match find (fun t => String.eqb (TopicReport.path t) (TPATH _ T)
                           && key_eqb (TopicReport.key t) (TOPIC_KEY _ T))
                 (SchemaReport.topics_in schemas) with
      | None => throw (ClientError.Server "topic not found")
      | Some schema =>
          match msg_to_stdvec body with
          | None => throw ClientError.Encoding
          | Some body =>
              let req := {| PublishRequest.serial := serial;
                            PublishRequest.path := TopicReport.path schema;
                            PublishRequest.topic_key := TopicReport.key schema;
                            PublishRequest.seq_no := seq_no;
                            PublishRequest.topic_body := body |} in
              let* resp := try_host (send_resp (RqPublish req) (publish_reply d req)) in
              publish_result resp
          end
      end
  | _ => throw (ClientError.Server "topic not found")
  end.

(** [subscribe_multi::<SubscribeTopic>(64)], with its error mapped to
    [ConnectionClosed]; it registers a local subscription and sends
    nothing. *)
Definition subscribe_multi : M ClientError.t unit :=
  if subscribe_multi_ok d then ret tt else throw ClientError.ConnectionClosed.

(** The [match res?] on the [StartStream] reply. *)
Definition started_id (res : TopicStreamResult.t) : M ClientError.t Uuidv7 :=
  match res with
  | TopicStreamResult.Started id => ret id
  | TopicStreamResult.DeviceDisconnected => throw (ClientError.Server "Device Disconnected")
  | TopicStreamResult.NoDeviceKnown => throw (ClientError.Server "No Device Known")
  | TopicStreamResult.NoSuchTopic => throw (ClientError.Server "No Such Topic")
  end.

Record JsonStreamListener := {
  jl_stream_id : Uuidv7;
  jl_schema : TopicReport.t NamedType }.

Record StreamListener := { sl_stream_id : Uuidv7 }.

(** [stream_topic_json]. *)
Definition stream_topic_json (serial : N) (path : string)
  : M ClientError.t JsonStreamListener :=
  let* schemas := attempt (get_device_schemas serial) in
  match schemas with
  | Ok (Some schemas) =>
      match find (fun e => String.eqb (TopicReport.path e) path)
                 (SchemaReport.topics_out schemas) with
      | None => throw (ClientError.Server "topic not found")
      | Some schema =>
          let* _ := subscribe_multi in
          let req := {| TopicStreamRequest.serial := serial;
                        TopicStreamRequest.path := path;
                        TopicStreamRequest.key := TopicReport.key schema |} in
          let* res := try_host (send_resp (RqStartStream req) (start_reply d req)) in
          let* stream_id := started_id res in
          ret {| jl_stream_id := stream_id; jl_schema := schema |}
      end
  | _ => throw (ClientError.Server "topic not found")
  end.

(** [stream_topic::<T>]. *)
Definition stream_topic {Msg} (T : Topic Msg) (serial : N)
  : M ClientError.t StreamListener :=
  let* schemas := attempt (get_device_schemas serial) in
  match schemas with
  | Ok (Some schemas) =>
      match find (fun e => String.eqb (TopicReport.path e) (TPATH _ T)
                           && key_eqb (TopicReport.key e) (TOPIC_KEY _ T))
                 (SchemaReport.topics_out schemas) with
      | None => throw (ClientError.Server "topic not found")
      | Some schema =>
          let* _ := subscribe_multi in
          let req := {| TopicStreamRequest.serial := serial;
                        TopicStreamRequest.path := TPATH _ T;
                        TopicStreamRequest.key := TopicReport.key schema |} in
          let* res := try_host (send_resp (RqStartStream req) (start_reply d req)) in
          let* stream_id := started_id res in
          ret {| sl_stream_id := stream_id |}
      end
  | _ => throw (ClientError.Server "topic not found")
  end.

(** What [self.sub.recv()] of a [MultiSubscription<TopicStreamMsg>]
    delivers, in order. *)
Inductive SubEvent :=
| SubMsg (m : TopicStreamMsg.t)
| Lagged (n : N)
| IoClosed.

(** Outcome of one [recv] call: [Some(msg)] or [None] with the events left
    over, or still waiting when the delivered events run out. *)
Inductive Recv (A : Type) :=
| RecvSome (v : A) (rest : list SubEvent)
| RecvNone (rest : list SubEvent)
| Waiting.
Arguments RecvSome {A} v rest.
Arguments RecvNone {A} rest.
Arguments Waiting {A}.

(** [JsonStreamListener::recv]. *)
Fixpoint json_recv (l : JsonStreamListener) (evs : list SubEvent) : Recv Value :=
  match evs with
  | [] => Waiting
  | IoClosed :: rest => RecvNone rest
  | Lagged _ :: rest => json_recv l rest
  | SubMsg m :: rest =>
      if negb (N.eqb (TopicStreamMsg.stream_id m) (jl_stream_id l)) then json_recv l rest
      else match from_slice_dyn codec (TopicReport.ty (jl_schema l)) (TopicStreamMsg.msg m) with
           | Ok msg => RecvSome msg rest
           | Err _ => json_recv l rest
           end
  end.

(** [StreamListener::<T>::recv]. *)
Fixpoint recv {Msg} (T : Topic Msg) (l : StreamListener) (evs : list SubEvent) : Recv Msg :=
  match evs with
  | [] => Waiting
  | IoClosed :: rest => RecvNone rest
  | Lagged _ :: rest => recv T l rest
  | SubMsg m :: rest =>
      if negb (N.eqb (TopicStreamMsg.stream_id m) (sl_stream_id l)) then recv T l rest
      else match msg_from_bytes _ T (TopicStreamMsg.msg m) with
           | Some msg => RecvSome msg rest
           | None => recv T l rest
           end
  end.

End Ops.

Arguments RecvSome {A} v rest.
Arguments RecvNone {A} rest.
Arguments Waiting {A}.

End Client.

(** ** Connecting: [connect_insecure] and [connect_with_ca_pem] *)

Module Connect.
Import Icd.

Module ConnectError.
Inductive t :=
| CaCertificate
| Connection
| Protocol.
End ConnectError.

(** The outcome of each fallible step of connecting, and the daemon's
    reply to the ping ([PingEndpoint] is [u32 -> u32]). *)
Record Env := {
  ca_cert_ok : bool;          (** [CertificateDer::from_pem_file] and [add] *)
  tcp_connect_ok : bool;      (** [TcpStream::connect] *)
  peer_addr_ok : bool;        (** [peer_addr] *)
  set_nodelay_ok : bool;      (** [set_nodelay] *)
  tls_connect_ok : bool;      (** [TlsConnector::connect] *)
  ping_reply : N -> Result N HostErr.t }.

(** The socket options the connect paths touch: [TCP_NODELAY], off on a
    fresh [TcpStream]. With it off, the kernel coalesces small writes
    (Nagle's algorithm). *)
Record Socket := { nodelay : bool }.

Definition fresh_socket : Socket := {| nodelay := false |}.

Definition coalescing (s : Socket) : bool := negb (nodelay s).

(** The [PoststationClient] handle (a [HostClient] over the split socket). *)
Inductive PoststationClient := MkPoststationClient.

(** A connect attempt: its result, the socket once one exists, and the
    requests sent on the new client. *)
Record Run := {
  result : Result PoststationClient ConnectError.t;
  socket : option Socket;
  trace : list Request }.

Definition fail_with (s : option Socket) (e : ConnectError.t) : Run :=
  {| result := Err e; socket := s; trace := [] |}.

(** The common tail of both paths: [send_resp::<PingEndpoint>(&42)] with
    its error mapped to [ConnectError::Protocol], then the token check. *)
Definition ping_check (env : Env) (s : Socket) : Run :=
  let res := match ping_reply env 42 with
             | Err _ => Err ConnectError.Protocol
             | Ok res => if negb (N.eqb res 42) then Err ConnectError.Protocol
                         else Ok MkPoststationClient
             end in
  {| result := res; socket := Some s; trace := [RqPing 42] |}.

(** [connect_insecure(port)]. *)
Definition connect_insecure (env : Env) : Run :=
  if negb (tcp_connect_ok env) then fail_with None ConnectError.Connection else
  let s := fresh_socket in
  if negb (peer_addr_ok env) then fail_with (Some s) ConnectError.Connection else
  if negb (set_nodelay_ok env) then fail_with (Some s) ConnectError.Connection else
  let s := {| nodelay := true |} in
  ping_check env s.

(** [connect_with_ca_pem(addr, ca_path)]. *)
Definition connect_with_ca_pem (env : Env) : Run :=
  if negb (ca_cert_ok env) then fail_with None ConnectError.CaCertificate else
  if negb (tcp_connect_ok env) then fail_with None ConnectError.Connection else
  let s := fresh_socket in
  if negb (set_nodelay_ok env) then fail_with (Some s) ConnectError.Connection else
  let s := {| nodelay := false |} in
  if negb (peer_addr_ok env) then fail_with (Some s) ConnectError.Connection else
  if negb (tls_connect_ok env) then fail_with (Some s) ConnectError.Connection else
  ping_check env s.

(** The pipe is up: every step before the ping succeeded. *)
Definition pipe_insecure (env : Env) : bool :=
  tcp_connect_ok env && peer_addr_ok env && set_nodelay_ok env.

Definition pipe_with_ca_pem (env : Env) : bool :=
  ca_cert_ok env && tcp_connect_ok env && set_nodelay_ok env
  && peer_addr_ok env && tls_connect_ok env.

End Connect.

(** ** Sample daemons and codecs

    Concrete instances of the client's parameters, used below to run the
    operations: schema trees are [unit], dynamic values are [nat]. *)

Module Samples.
Import Icd Client.

Definition key_a : Key := [x01; x02; x03; x04; x05; x06; x07; x08].
Definition key_b : Key := [x11; x12; x13; x14; x15; x16; x17; x18].

Definition temp_topic : TopicReport.t unit :=
  {| TopicReport.path := "sensor/temp"; TopicReport.key := key_a; TopicReport.ty := tt |}.

Definition led_topic : TopicReport.t unit :=
  {| TopicReport.path := "led/set"; TopicReport.key := key_b; TopicReport.ty := tt |}.

Definition echo_endpoint : EndpointReport.t unit :=
  {| EndpointReport.path := "echo"; EndpointReport.req_key := key_a;
     EndpointReport.resp_key := key_b; EndpointReport.req_ty := tt;
     EndpointReport.resp_ty := tt |}.

Definition report : SchemaReport.t unit :=
  {| SchemaReport.topics_in := [led_topic];
     SchemaReport.topics_out := [temp_topic];
     SchemaReport.endpoints := [echo_endpoint] |}.

(** Device 1 is known; the device answers proxied calls with a wire
    error; it has stored one message, the byte [0x00], which [codec] below
    does not decode. *)
Definition daemon : @Daemon unit :=
  {| schemas_reply := fun serial => if N.eqb serial 1%N then Ok (Some report) else Ok None;
     topics_reply := fun _ => Ok (Some [{| TopicMsg.uuidv7 := 5%N; TopicMsg.msg := [x00] |}]);
     proxy_reply := fun rq =>
       Ok (ProxyResponse.WireErr (ProxyRequest.resp_key rq) (ProxyRequest.seq_no rq)
             (WireError.FrameTooLong 300%N 256%N));
     publish_reply := fun _ => Ok PublishResponse.Sent;
     start_reply := fun _ => Ok (TopicStreamResult.Started 7%N);
     subscribe_multi_ok := true |}.

(** The same daemon, with the connection gone. *)
Definition closed_daemon : @Daemon unit :=
  {| schemas_reply := fun _ => Err HostErr.Closed;
     topics_reply := fun _ => Err HostErr.Closed;
     proxy_reply := fun _ => Err HostErr.Closed;
     publish_reply := fun _ => Err HostErr.Closed;
     start_reply := fun _ => Err HostErr.Closed;
     subscribe_multi_ok := false |}.

(** Values are single bytes [1 ..= 9]. *)
Definition codec : @DynCodec unit nat :=
  {| to_stdvec_dyn := fun _ (v : nat) =>
       match Byte.of_nat v with Some b => Ok [b] | None => Err "out of range"%string end;
     from_slice_dyn := fun _ bytes =>
       match bytes with
       | [b] => if Nat.leb 1 (Byte.to_nat b) && Nat.leb (Byte.to_nat b) 9
                then Ok (Byte.to_nat b) else Err "UnexpectedVariant"%string
       | _ => Err "DeserializeUnexpectedEnd"%string
       end |}.

Definition echo : Endpoint nat nat :=
  {| PATH := "echo"; REQ_KEY := key_a; RESP_KEY := key_b;
     to_stdvec := fun v => option_map (fun b => [b]) (Byte.of_nat v);
     from_bytes := fun bytes => match bytes with [b] => Some (Byte.to_nat b) | _ => None end |}.

Definition temp : Topic nat :=
  {| TPATH := "sensor/temp"; TOPIC_KEY := key_a;
     msg_from_bytes := fun bytes => match bytes with [b] => Some (Byte.to_nat b) | _ => None end |}.

(** A connect environment where every step succeeds and the daemon echoes
    the ping token. *)
Definition env_up : Connect.Env :=
  {| Connect.ca_cert_ok := true; Connect.tcp_connect_ok := true;
     Connect.peer_addr_ok := true; Connect.set_nodelay_ok := true;
     Connect.tls_connect_ok := true; Connect.ping_reply := fun n => Ok n |}.

(** The same, with a daemon that answers the ping with another token. *)
Definition env_wrong_token : Connect.Env :=
  {| Connect.ca_cert_ok := true; Connect.tcp_connect_ok := true;
     Connect.peer_addr_ok := true; Connect.set_nodelay_ok := true;
     Connect.tls_connect_ok := true; Connect.ping_reply := fun _ => Ok 43%N |}.

End Samples.

(** ** The command line tool ([poststation-cli], [src/device/mod.rs]) *)

Module Cli.
Import Icd Client.

(** [str::contains] with a [&str] pattern: the pattern is a prefix of
    some suffix of the string (the empty pattern is in every string). *)
Fixpoint contains (s pat : string) : bool :=
  String.prefix pat s
  || match s with
     | EmptyString => false
     | String _ s' => contains s' pat
     end.

Section Fuzzy.
Context {NamedType : Type}.

(** The body shared by [fuzzy_endpoint_match], [fuzzy_topic_out_match]
    and [fuzzy_topic_in_match] (written out three times in the source):
    keep the reports whose path contains [path]; no match and several
    matches bail. Returned beside the result: the matches printed before
    bailing with "Too many matches". *)
Definition fuzzy_match {R} (what : string) (path_of : R -> string)
  (path : string) (items : list R) : Result R string * list R :=
  let matches := filter (fun r => contains (path_of r) path) items in
  match matches with
  | [] => (Err ("No " ++ what ++ " found matching '" ++ path ++ "'")%string, [])
  | [r] => (Ok r, [])
  | more => (Err "Too many matches, be more specific!"%string, more)
  end.

Definition fuzzy_endpoint_match (path : string) (schema : SchemaReport.t NamedType) :=
  fuzzy_match "endpoint" (@EndpointReport.path NamedType) path
    (SchemaReport.endpoints schema).

Definition fuzzy_topic_out_match (path : string) (schema : SchemaReport.t NamedType) :=
  fuzzy_match "topic-out" (@TopicReport.path NamedType) path
    (SchemaReport.topics_out schema).

Definition fuzzy_topic_in_match (path : string) (schema : SchemaReport.t NamedType) :=
  fuzzy_match "topic-in" (@TopicReport.path NamedType) path
    (SchemaReport.topics_in schema).

End Fuzzy.

Section Listen.
Context {NamedType Value : Type}.
Variable codec : @DynCodec NamedType Value.

(** The loop [while let Some(m) = sub.recv().await { println!(..) }]
    of [device_smart_listen], followed by [println!("Closed")]: the
    messages printed, in order, and whether "Closed" was printed. When
    the delivered events run out, the loop is still waiting in [recv].
    Each round consumes at least one event, so [S (length evs)] rounds
    suffice. *)
Fixpoint listen (fuel : nat) (sub : @JsonStreamListener NamedType)
  (evs : list SubEvent) : list Value * bool :=
  match fuel with
  | O => ([], false)
  | S fuel' =>
      match json_recv codec sub evs with
      | RecvSome m rest => let (ms, closed) := listen fuel' sub rest in (m :: ms, closed)
      | RecvNone _ => ([], true)
      | Waiting => ([], false)
      end
  end.

End Listen.

End Cli.

(** ** Keys in the REST API ([poststation-api-icd], [src/rest.rs]) *)

Module Rest.
Import Icd.

Definition u64_max : N := (2 ^ 64 - 1)%N.

(** [u64::from_le_bytes]. *)
Fixpoint from_le_bytes (bs : list byte) : N :=
  match bs with
  | [] => 0%N
  | b :: bs' => (Byte.to_N b + 256 * from_le_bytes bs')%N
  end.

(** The first [k] bytes of [u64::to_le_bytes], least significant first. *)
Fixpoint to_le_bytes_n (k : nat) (v : N) : list byte :=
  match k with
  | O => []
  | S k' =>
      match Byte.of_N (v mod 256) with Some b => b | None => x00 end
      :: to_le_bytes_n k' (v / 256)
  end.

Definition to_le_bytes (v : N) : list byte := to_le_bytes_n 8 v.

(** An [UpperHex] digit. *)
Definition hex_char (dg : N) : ascii :=
  if (dg <? 10)%N then ascii_of_N (48 + dg) else ascii_of_N (55 + dg).

(** The [UpperHex] digits of [v], most significant first, in front of
    [acc]: at least one digit and no leading zero. A [u64] has at most
    16 of them. *)
Fixpoint hex_digits (fuel : nat) (v : N) (acc : string) : string :=
  match fuel with
  | O => acc
  | S fuel' =>
      let acc' := String (hex_char (v mod 16)) acc in
      if (v / 16 =? 0)%N then acc' else hex_digits fuel' (v / 16) acc'
  end.

Fixpoint zeros (n : nat) : string :=
  match n with
  | O => EmptyString
  | S n' => String "0" (zeros n')
  end.

(** [format!("{:016X}", v)]: padded with zeros to width 16. *)
Definition fmt_016X (v : N) : string :=
  let s := hex_digits 16 v EmptyString in
  (zeros (16 - String.length s) ++ s)%string.

(** [to_digit(16)] on one byte. *)
Definition to_digit16 (c : ascii) : option N :=
  let n := N_of_ascii c in
  if (48 <=? n)%N && (n <=? 57)%N then Some (n - 48)%N
  else if (65 <=? n)%N && (n <=? 70)%N then Some (n - 55)%N
  else if (97 <=? n)%N && (n <=? 102)%N then Some (n - 87)%N
  else None.

(** The digit loop of [u64::from_str_radix(_, 16)]: [checked_mul], then
    [checked_add], failing on an invalid digit or an overflow. *)
Fixpoint parse_digits (s : string) (acc : N) : option N :=
  match s with
  | EmptyString => Some acc
  | String c s' =>
      match to_digit16 c with
      | None => None
      | Some dg =>
          if (u64_max <? acc * 16)%N then None
          else if (u64_max <? acc * 16 + dg)%N then None
          else parse_digits s' (acc * 16 + dg)%N
      end
  end.

(** [u64::from_str_radix(src, 16)]: the empty string and a lone sign are
    errors, a leading [+] is skipped, and [-] is an invalid digit for an
    unsigned type. *)
Definition from_str_radix16 (src : string) : option N :=
  match src with
  | EmptyString => None
  | String c EmptyString =>
      if Ascii.eqb c "+" || Ascii.eqb c "-" then None else parse_digits src 0
  | String c rest =>
      if Ascii.eqb c "+" then parse_digits rest 0 else parse_digits src 0
  end.

(** [impl From<postcard_rpc::Key> for Key]. *)
Definition key_to_rest (k : Key) : string := fmt_016X (from_le_bytes k).

(** [impl TryFrom<Key> for postcard_rpc::Key]: the string is handed back
    when it does not parse. *)
Definition key_from_rest (s : string) : Result Key string :=
  match from_str_radix16 s with
  | None => Err s
  | Some v => Ok (to_le_bytes v)
  end.

End Rest.

(* ================================================================= *)
(** ** Where the COBS encoder stands after a prefix of its input

    Devices for the proofs about [Cobs.encode_vec], not code of the
    crate: [O] is the output of the closed blocks, [blk] the current
    block. *)

Module CobsLayout.
Import Cobs.

(** A buffer of [m] bytes holding [l] and then zeros. *)
Definition pad (m : nat) (l : list byte) : list byte :=
  firstn m l ++ repeat x00 (m - length l).

(** One input byte, on the block stream of [encode_go]. *)
Definition layout_step (O blk : list byte) (x : byte) : list byte * list byte :=
  if Byte.eqb x x00 then (O ++ code_byte (length blk + 1) :: blk, [])
  else if Nat.eqb (length blk + 1) 254 then (O ++ xff :: blk ++ [x], [])
  else (O, blk ++ [x]).

Fixpoint layout (O blk : list byte) (data : list byte) : list byte * list byte :=
  match data with
  | [] => (O, blk)
  | x :: data' => let (O', blk') := layout_step O blk x in layout O' blk' data'
  end.

(** One past the last index the encoder has written. *)
Definition mark (Ob : list byte * list byte) : nat :=
  length (fst Ob) + length (snd Ob) + match snd Ob with [] => 0 | _ => 1 end.

(** The encoder over a buffer of [m] bytes, at layout [(O, blk)]. *)
Definition enc_at (m : nat) (O blk : list byte) : CobsEncoder :=
  {| dest := pad m (O ++ x00 :: blk);
     dest_idx := length O + 1 + length blk;
     state := {| code_idx := length O; num_bt_sent := length blk + 1;
                 offset_idx := length blk + 1 |} |}.

(** Payloads made of whole runs of 254 non-zero bytes. *)
Inductive full_runs : list byte -> Prop :=
| full_runs_one c : length c = 254 -> ~ In x00 c -> full_runs c
| full_runs_more c r : length c = 254 -> ~ In x00 c -> full_runs r -> full_runs (c ++ r).

End CobsLayout.

(** * Proofs *)

(** ** COBS *)

Lemma byte_to_nat_zero (b : byte) : Byte.to_nat b = 0 -> b = x00.
Proof.
  intro H. pose proof (Byte.of_to_nat b) as E. rewrite H in E.
  cbv in E. congruence.
Qed.

Lemma byte_to_nat_255 (b : byte) : Byte.to_nat b = 255 -> b = xff.
Proof.
  intro H. pose proof (Byte.of_to_nat b) as E. rewrite H in E.
  cbv in E. congruence.
Qed.

Lemma byte_nonzero_to_nat (b : byte) : b <> x00 -> Byte.to_nat b <> 0.
Proof. intros H E. apply H, byte_to_nat_zero, E. Qed.

Lemma code_byte_to_nat (n : nat) : n <= 255 -> Byte.to_nat (Cobs.code_byte n) = n.
Proof.
  intro Hn. unfold Cobs.code_byte.
  destruct (Byte.of_nat n) eqn:E.
  - apply Byte.to_of_nat in E. exact E.
  - apply Byte.of_nat_None_iff in E. lia.
Qed.

Lemma code_byte_nonzero (n : nat) : 1 <= n <= 255 -> Cobs.code_byte n <> x00.
Proof.
  intros Hn E. pose proof (code_byte_to_nat n ltac:(lia)) as H.
  rewrite E in H. cbv in H. lia.
Qed.

Lemma eqb_x00_false (b : byte) : b <> x00 -> Byte.eqb b x00 = false.
Proof.
  intro H. destruct (Byte.eqb b x00) eqn:E; [|reflexivity].
  apply Byte.byte_dec_bl in E. contradiction.
Qed.

(** The body of a block: [k + length blk] data bytes left, none of them zero. *)
Lemma push_block (C : nat -> Cobs.DecoderState) :
  (forall i b, b <> x00 -> Cobs.feed (C (S i)) b = (Cobs.DataContinue b, C i)) ->
  forall blk k dest rest, ~ In x00 blk ->
  Cobs.push (C (length blk + k)) dest (blk ++ rest) = Cobs.push (C k) (rev blk ++ dest) rest.
Proof.
  intros HC blk. induction blk as [|b blk IH]; intros k dest rest Hnz.
  - reflexivity.
  - simpl in Hnz. apply Decidable.not_or in Hnz as [Hb Hnz].
    cbn [length app Cobs.push Nat.add]. rewrite HC by congruence.
    rewrite IH by exact Hnz. cbn [rev]. rewrite <- app_assoc. reflexivity.
Qed.

Lemma feed_grab_data i b : b <> x00 -> Cobs.feed (Cobs.Grab (S i)) b = (Cobs.DataContinue b, Cobs.Grab i).
Proof.
  intro H. unfold Cobs.feed. apply byte_nonzero_to_nat in H.
  destruct (Nat.eqb_spec (Byte.to_nat b) 0); [contradiction | reflexivity].
Qed.

Lemma feed_grabchain_data i b : b <> x00 -> Cobs.feed (Cobs.GrabChain (S i)) b = (Cobs.DataContinue b, Cobs.GrabChain i).
Proof.
  intro H. unfold Cobs.feed. apply byte_nonzero_to_nat in H.
  destruct (Nat.eqb_spec (Byte.to_nat b) 0); [contradiction | reflexivity].
Qed.

Lemma push_code st dest c rest :
  Cobs.boundary st -> Byte.to_nat c <> 0 ->
  Cobs.push st dest (c :: rest) = Cobs.push (Cobs.block_state (Byte.to_nat c)) (Cobs.enter st dest) rest.
Proof.
  intros Hst Hc. unfold Cobs.block_state.
  destruct Hst as [-> | [-> | ->]]; cbn [Cobs.push Cobs.feed Cobs.enter];
    destruct (Nat.eqb_spec (Byte.to_nat c) 0); try contradiction;
    destruct (Nat.eqb (Byte.to_nat c) 255); reflexivity.
Qed.

Lemma rev_app_cons_x00 (a b : list byte) : rev (x00 :: a ++ b) = rev b ++ rev a ++ [x00].
Proof. cbn [rev]. rewrite rev_app_distr, app_assoc. reflexivity. Qed.

Lemma push_encode_go data : forall blk st dest tail,
  Cobs.boundary st -> ~ In x00 blk -> length blk <= 253 ->
  Cobs.push st dest (Cobs.encode_go blk data ++ x00 :: tail)
  = Cobs.Complete (rev (Cobs.enter st dest) ++ blk ++ data).
Proof.
  induction data as [|x data IH]; intros blk st dest tail Hst Hnz Hlen.
  - cbn [Cobs.encode_go]. rewrite <- app_comm_cons.
    rewrite push_code by (try rewrite code_byte_to_nat; auto; lia).
    rewrite code_byte_to_nat by lia. unfold Cobs.block_state.
    destruct (Nat.eqb_spec (length blk + 1) 255); [lia|].
    replace (length blk + 1 - 1) with (length blk + 0) by lia.
    rewrite (push_block Cobs.GrabChain feed_grabchain_data) by exact Hnz.
    cbn. rewrite rev_app_distr, rev_involutive, app_nil_r. reflexivity.
  - cbn [Cobs.encode_go].
    destruct (Byte.eqb x x00) eqn:Ex.
    + apply Byte.byte_dec_bl in Ex. subst x.
      rewrite <- app_comm_cons.
      rewrite push_code by (try rewrite code_byte_to_nat; auto; lia).
      rewrite code_byte_to_nat by lia. unfold Cobs.block_state.
      destruct (Nat.eqb_spec (length blk + 1) 255); [lia|].
      replace (length blk + 1 - 1) with (length blk + 0) by lia.
      rewrite <- app_assoc.
      rewrite (push_block Cobs.GrabChain feed_grabchain_data) by exact Hnz.
      rewrite IH by (unfold Cobs.boundary; cbn; (tauto || lia)).
      cbn [Cobs.enter]. rewrite rev_app_cons_x00, rev_involutive.
      cbn [app]. rewrite <- !app_assoc. reflexivity.
    + assert (Hx : x <> x00) by (intro E; subst; discriminate).
      destruct (Nat.eqb_spec (length blk + 1) 254).
      * rewrite <- app_comm_cons.
        rewrite push_code by (exact Hst || (cbv; discriminate)).
        change (Byte.to_nat xff) with 255. cbn [Cobs.block_state Nat.eqb].
        assert (Hl : length (blk ++ [x]) = 254) by (rewrite length_app; cbn; lia).
        replace 254 with (length (blk ++ [x]) + 0) at 1 by lia.
        rewrite <- app_assoc.
        assert (Hnz' : ~ In x00 (blk ++ [x])).
        { rewrite in_app_iff. intros [H | [H | []]]; auto. }
        rewrite (push_block Cobs.Grab feed_grab_data) by exact Hnz'.
        rewrite IH by (unfold Cobs.boundary; cbn; (tauto || lia)).
        cbn [Cobs.enter]. rewrite rev_app_distr, rev_involutive.
        rewrite <- !app_assoc. reflexivity.
      * rewrite IH.
        -- rewrite <- !app_assoc. reflexivity.
        -- exact Hst.
        -- rewrite in_app_iff. intros [H | [H | []]]; auto.
        -- rewrite length_app. cbn. lia.
Qed.

Lemma encode_go_nonzero data : forall blk,
  ~ In x00 blk -> length blk <= 253 -> ~ In x00 (Cobs.encode_go blk data).
Proof.
  induction data as [|x data IH]; intros blk Hnz Hlen; cbn [Cobs.encode_go].
  - intros [H | H]; [|contradiction].
    revert H. apply code_byte_nonzero. lia.
  - destruct (Byte.eqb x x00) eqn:Ex.
    + intros [H | H].
      * revert H. apply code_byte_nonzero. lia.
      * apply in_app_iff in H as [H | H]; [contradiction|].
        revert H. apply IH; cbn; auto; lia.
    + assert (Hx : x <> x00) by (intro E; subst; discriminate).
      destruct (Nat.eqb_spec (length blk + 1) 254).
      * intros [H | H]; [discriminate|].
        rewrite <- app_assoc in H. apply in_app_iff in H as [H | H]; [contradiction|].
        destruct H as [H | H]; [congruence|].
        revert H. apply IH; cbn; auto; lia.
      * apply IH.
        -- rewrite in_app_iff. intros [H | [H | []]]; auto.
        -- rewrite length_app. cbn. lia.
Qed.

(** ** The encoder writes the block stream into its buffer *)

Section EncoderLayout.
Import CobsLayout.

Local Ltac lens := repeat progress (rewrite ?length_app in *; cbn [length] in * ).
Local Ltac same :=
  repeat progress (rewrite <- ?app_assoc; cbn [app]); repeat first [reflexivity | lia | f_equal].

Lemma length_pad m l : length (pad m l) = m.
Proof. unfold pad. rewrite length_app, length_firstn, repeat_length. lia. Qed.

Lemma pad_fit m l : length l <= m -> pad m l = l ++ repeat x00 (m - length l).
Proof. intro H. unfold pad. rewrite firstn_all2 by exact H. reflexivity. Qed.

Lemma firstn_length_app (l l' : list byte) k :
  firstn (length l + k) (l ++ l') = l ++ firstn k l'.
Proof. induction l as [|b l IH]; [reflexivity|]. cbn [length app firstn Nat.add]. now rewrite IH. Qed.

Lemma pad_app_zero m l : pad m (l ++ [x00]) = pad m l.
Proof.
  destruct (le_lt_dec m (length l)) as [H | H].
  - unfold pad. rewrite firstn_app, length_app. cbn [length].
    replace (m - length l) with 0 by lia. replace (m - (length l + 1)) with 0 by lia.
    cbn [firstn repeat]. rewrite !app_nil_r. reflexivity.
  - rewrite !pad_fit by (rewrite ?length_app; cbn [length]; lia).
    rewrite length_app, <- app_assoc. cbn [length app]. f_equal.
    replace (m - length l) with (S (m - (length l + 1))) by lia. reflexivity.
Qed.

Lemma set_at_mid (A : list byte) x R v :
  Cobs.set_at (A ++ x :: R) (length A) v = Some (A ++ v :: R).
Proof.
  unfold Cobs.set_at. rewrite length_app. cbn [length].
  destruct (Nat.ltb_spec (length A) (length A + S (length R))) as [_ | H]; [|lia].
  f_equal. rewrite <- (Nat.add_0_r (length A)) at 1. rewrite firstn_length_app.
  replace (S (length A)) with (length A + 1) by lia.
  rewrite skipn_app, skipn_all2 by lia. replace (length A + 1 - length A) with 1 by lia.
  cbn [firstn skipn app]. rewrite app_nil_r. reflexivity.
Qed.

Lemma mark_empty (O : list byte) : mark (O, []) = length O.
Proof. unfold mark. cbn. lia. Qed.

Lemma mark_nonempty (O b : list byte) : b <> [] -> mark (O, b) = length O + length b + 1.
Proof. intro H. unfold mark. cbn [fst snd]. destruct b; [contradiction | reflexivity]. Qed.

Lemma mark_le (O b : list byte) : mark (O, b) <= length O + length b + 1.
Proof. unfold mark. cbn [fst snd]. destruct b; lia. Qed.

Lemma layout_step_cases O blk x O' b' :
  layout_step O blk x = (O', b') ->
  (x = x00 /\ O' = O ++ Cobs.code_byte (length blk + 1) :: blk /\ b' = []) \/
  (x <> x00 /\ length blk + 1 = 254 /\ O' = O ++ xff :: blk ++ [x] /\ b' = []) \/
  (x <> x00 /\ length blk + 1 <> 254 /\ O' = O /\ b' = blk ++ [x]).
Proof.
  unfold layout_step. intro E. destruct (Byte.eqb x x00) eqn:Ex.
  - apply Byte.byte_dec_bl in Ex. injection E as <- <-. left. auto.
  - assert (Hx : x <> x00) by (intro H; subst; discriminate).
    destruct (Nat.eqb_spec (length blk + 1) 254); injection E as <- <-; right; [left | right]; auto.
Qed.

Lemma layout_step_wf O blk x O' b' :
  layout_step O blk x = (O', b') -> ~ In x00 blk -> length blk <= 253 ->
  ~ In x00 b' /\ length b' <= 253.
Proof.
  intros E Hnz Hlen.
  destruct (layout_step_cases O blk x O' b' E)
    as [(_ & _ & ->) | [(_ & _ & _ & ->) | (Hx & Hl & _ & ->)]];
    try (split; [intros [] | cbn; lia]).
  split.
  - rewrite in_app_iff. intros [H | [H | []]]; auto.
  - rewrite length_app. cbn [length]. lia.
Qed.

Lemma mark_step O blk x O' b' :
  layout_step O blk x = (O', b') -> mark (O, blk) <= mark (O', b').
Proof.
  intro E. pose proof (mark_le O blk) as Hle.
  destruct (layout_step_cases O blk x O' b' E)
    as [(_ & -> & ->) | [(_ & _ & -> & ->) | (_ & _ & -> & ->)]].
  - rewrite mark_empty. lens. lia.
  - rewrite mark_empty. lens. lia.
  - rewrite (mark_nonempty O (blk ++ [x]))
      by (intro H; apply app_eq_nil in H as [_ H]; discriminate).
    lens. lia.
Qed.

Lemma layout_cons O blk x data :
  layout O blk (x :: data) =
  layout (fst (layout_step O blk x)) (snd (layout_step O blk x)) data.
Proof. cbn [layout]. destruct (layout_step O blk x). reflexivity. Qed.

Lemma mark_layout data : forall O blk, mark (O, blk) <= mark (layout O blk data).
Proof.
  induction data as [|x data IH]; intros O blk; [reflexivity|].
  rewrite layout_cons. destruct (layout_step O blk x) as [O' b'] eqn:E.
  pose proof (mark_step O blk x O' b' E). cbn [fst snd]. specialize (IH O' b'). lia.
Qed.

(** One byte of [CobsEncoder::push], while its writes stay inside the buffer. *)
Lemma encoder_push_byte_layout m O blk x O' b' :
  layout_step O blk x = (O', b') -> ~ In x00 blk -> length blk <= 253 ->
  mark (O', b') <= m ->
  Cobs.encoder_push_byte (enc_at m O blk) x = Some (enc_at m O' b').
Proof.
  intros E Hnz Hlen Hm. remember (enc_at m O' b') as R eqn:HR.
  unfold Cobs.encoder_push_byte, Cobs.state_push, enc_at.
  cbn [Cobs.state Cobs.dest Cobs.dest_idx Cobs.code_idx Cobs.num_bt_sent Cobs.offset_idx].
  destruct (layout_step_cases O blk x O' b' E)
    as [(-> & -> & ->) | [(Hx & Hl & -> & ->) | (Hx & Hl & -> & ->)]].
  - (* a zero closes the block *)
    rewrite mark_empty in Hm. lens.
    change (Byte.eqb x00 x00) with true. cbv iota.
    rewrite pad_fit by (lens; lia).
    rewrite <- app_assoc. cbn [app]. rewrite set_at_mid.
    subst R. unfold enc_at. rewrite pad_app_zero, pad_fit by (lens; lia).
    lens. same.
  - (* the 254th non-zero byte closes the block with 0xFF *)
    rewrite mark_empty in Hm. lens.
    rewrite eqb_x00_false by exact Hx. cbv zeta.
    destruct (Nat.eqb_spec (length blk + 1 + 1) 255) as [_ | H]; [|lia].
    replace (length blk + 1 + 1) with 255 by lia. change (Cobs.code_byte 255) with xff.
    rewrite pad_fit by (lens; lia).
    rewrite length_app. cbn [length].
    replace (m - (length O + S (length blk))) with (S (m - (length O + S (length blk)) - 1)) by lia.
    cbn [repeat]. rewrite <- app_assoc. cbn [app]. rewrite set_at_mid.
    replace (length O + 1 + length blk) with (length (O ++ xff :: blk))
      by (lens; lia).
    replace (O ++ xff :: blk ++ x00 :: repeat x00 (m - (length O + S (length blk)) - 1))
      with ((O ++ xff :: blk) ++ x00 :: repeat x00 (m - (length O + S (length blk)) - 1))
      by (rewrite <- app_assoc; reflexivity).
    rewrite set_at_mid. subst R. unfold enc_at.
    rewrite pad_app_zero, pad_fit by (lens; lia).
    lens. same.
  - (* any other non-zero byte joins the block *)
    rewrite mark_nonempty in Hm by (intro H; apply app_eq_nil in H as [_ H]; discriminate).
    lens.
    rewrite eqb_x00_false by exact Hx. cbv zeta.
    destruct (Nat.eqb_spec (length blk + 1 + 1) 255) as [H | _]; [lia|].
    rewrite pad_fit by (lens; lia).
    rewrite length_app. cbn [length].
    replace (m - (length O + S (length blk))) with (S (m - (length O + S (length blk)) - 1)) by lia.
    cbn [repeat].
    replace (length O + 1 + length blk) with (length (O ++ x00 :: blk))
      by (lens; lia).
    rewrite set_at_mid. subst R. unfold enc_at.
    rewrite pad_fit by (lens; lia).
    lens. same.
Qed.

Lemma encoder_push_layout m data : forall O blk,
  ~ In x00 blk -> length blk <= 253 -> mark (layout O blk data) <= m ->
  Cobs.encoder_push (enc_at m O blk) data
  = Some (enc_at m (fst (layout O blk data)) (snd (layout O blk data))).
Proof.
  induction data as [|x data IH]; intros O blk Hnz Hlen Hm; [reflexivity|].
  rewrite layout_cons in Hm |- *. destruct (layout_step O blk x) as [O' b'] eqn:E.
  cbn [fst snd] in Hm |- *.
  destruct (layout_step_wf O blk x O' b' E Hnz Hlen) as [Hnz' Hlen'].
  pose proof (mark_layout data O' b') as Hmono.
  cbn [Cobs.encoder_push].
  rewrite (encoder_push_byte_layout m O blk x O' b' E Hnz Hlen ltac:(lia)).
  apply IH; assumption.
Qed.

Lemma encoder_finalize_layout m Of bf :
  mark (Of, bf) <= m -> Of ++ bf <> [] ->
  firstn (snd (Cobs.encoder_finalize (enc_at m Of bf)))
         (fst (Cobs.encoder_finalize (enc_at m Of bf)))
  = firstn m (Of ++ Cobs.code_byte (length bf + 1) :: bf).
Proof.
  intros Hm Hne. unfold Cobs.encoder_finalize, enc_at, Cobs.state_finalize.
  cbn [Cobs.dest_idx Cobs.dest Cobs.state Cobs.code_idx Cobs.num_bt_sent].
  destruct (Nat.eqb_spec (length Of + 1 + length bf) 1) as [H1 | _].
  { exfalso. apply Hne. destruct Of, bf; cbn [length] in H1; try lia. reflexivity. }
  destruct (Nat.ltb_spec (length Of) m) as [Hlt | Hge].
  - (* the last code byte is inside the buffer *)
    assert (Hfit : length Of + 1 + length bf <= m).
    { destruct bf; [cbn [length]; lia|].
      rewrite mark_nonempty in Hm by discriminate. lia. }
    rewrite pad_fit by (rewrite length_app; cbn [length]; lia).
    rewrite <- app_assoc. cbn [app]. rewrite set_at_mid. cbn [fst snd].
    rewrite (firstn_all2 (n := m)) by (rewrite length_app; cbn [length]; lia).
    change (Of ++ Cobs.code_byte (length bf + 1) :: bf ++ repeat x00 (m - length (Of ++ x00 :: bf)))
      with (Of ++ (Cobs.code_byte (length bf + 1) :: bf) ++ repeat x00 (m - length (Of ++ x00 :: bf))).
    rewrite app_assoc.
    replace (length Of + 1 + length bf)
      with (length (Of ++ Cobs.code_byte (length bf + 1) :: bf) + 0)
      by (rewrite length_app; cbn [length]; lia).
    rewrite firstn_length_app. cbn [firstn]. apply app_nil_r.
  - (* it falls one past the end of the buffer: the block before was closed by 0xFF *)
    destruct bf as [|b bf]; [|rewrite mark_nonempty in Hm by discriminate; cbn [length] in Hm; lia].
    rewrite mark_empty in Hm. cbn [length].
    assert (Hp : pad m (Of ++ [x00]) = Of).
    { unfold pad. replace m with (length Of) by lia. rewrite <- (Nat.add_0_r (length Of)) at 1.
      rewrite firstn_length_app, length_app. cbn [length firstn].
      replace (length Of - (length Of + 1)) with 0 by lia. cbn [repeat]. rewrite !app_nil_r.
      reflexivity. }
    rewrite Hp. unfold Cobs.set_at. destruct (Nat.ltb_spec (length Of) (length Of)); [lia|].
    cbn [fst snd]. rewrite firstn_all2 by lia.
    replace m with (length Of + 0) by lia. rewrite firstn_length_app. cbn [firstn]. rewrite app_nil_r.
    reflexivity.
Qed.

Lemma layout_count data : forall O blk,
  length blk <= 253 ->
  exists F, length (fst (layout O blk data)) + length (snd (layout O blk data))
            = length O + length blk + length data + F /\
          254 * F + length (snd (layout O blk data)) <= length blk + length data /\
          length (snd (layout O blk data)) <= 253.
Proof.
  induction data as [|x data IH]; intros O blk Hlen.
  - exists 0. cbn [layout fst snd length]. lia.
  - rewrite layout_cons. destruct (layout_step O blk x) as [O' b'] eqn:E. cbn [fst snd length].
    destruct (layout_step_cases O blk x O' b' E)
      as [(_ & -> & ->) | [(Hx & Hl & -> & ->) | (Hx & Hl & -> & ->)]].
    + destruct (IH (O ++ Cobs.code_byte (length blk + 1) :: blk) [] ltac:(cbn [length]; lia))
        as (F & H1 & H2 & H3).
      exists F. lens. lia.
    + destruct (IH (O ++ xff :: blk ++ [x]) [] ltac:(cbn [length]; lia)) as (F & H1 & H2 & H3).
      exists (S F). lens. lia.
    + destruct (IH O (blk ++ [x]) ltac:(lens; lia))
        as (F & H1 & H2 & H3).
      exists F. lens. lia.
Qed.

Lemma max_enc_split n : exists q r, n = 254 * q + r /\ r < 254 /\
  Cobs.max_encoding_length n = n + q + (if 0 <? r then 1 else 0).
Proof.
  exists (n / 254), (n mod 254). split; [apply Nat.div_mod; lia|].
  split; [apply Nat.mod_upper_bound; lia | reflexivity].
Qed.

Lemma layout_mark_bound data :
  mark (layout [] [] data) <= Cobs.max_encoding_length (length data).
Proof.
  destruct (layout_count data [] [] ltac:(cbn [length]; lia)) as (F & H1 & H2 & H3).
  destruct (max_enc_split (length data)) as (q & r & Hn & Hr & ->).
  destruct (layout [] [] data) as [Of bf]. cbn [fst snd length] in *.
  destruct bf as [|b bf];
    [rewrite mark_empty | rewrite mark_nonempty by discriminate]; cbn [length] in *;
    destruct (Nat.ltb_spec 0 r); lia.
Qed.

Lemma layout_nonempty data : data <> [] ->
  fst (layout [] [] data) ++ snd (layout [] [] data) <> [].
Proof.
  intros Hd H. destruct (layout_count data [] [] ltac:(cbn [length]; lia)) as (F & H1 & _).
  apply (f_equal (@length byte)) in H. rewrite length_app in H. cbn [length] in H, H1.
  destruct data; [contradiction | cbn [length] in H1; lia].
Qed.

Lemma encode_go_layout data : forall O blk,
  O ++ Cobs.encode_go blk data
  = fst (layout O blk data) ++ Cobs.code_byte (length (snd (layout O blk data)) + 1)
      :: snd (layout O blk data).
Proof.
  induction data as [|x data IH]; intros O blk; [reflexivity|].
  rewrite layout_cons. destruct (layout_step O blk x) as [O' b'] eqn:E. cbn [fst snd].
  rewrite <- IH. cbn [Cobs.encode_go].
  destruct (layout_step_cases O blk x O' b' E)
    as [(-> & -> & ->) | [(Hx & Hl & -> & ->) | (Hx & Hl & -> & ->)]].
  - change (Byte.eqb x00 x00) with true. cbv iota. rewrite <- app_assoc. reflexivity.
  - rewrite eqb_x00_false by exact Hx. rewrite (proj2 (Nat.eqb_eq _ _) Hl).
    same.
  - rewrite eqb_x00_false by exact Hx. rewrite (proj2 (Nat.eqb_neq _ _) Hl). reflexivity.
Qed.

Lemma encoder_new_layout m : Cobs.encoder_new (repeat x00 m) = enc_at m [] [].
Proof.
  unfold Cobs.encoder_new, enc_at. cbn [app length].
  change (pad m [x00]) with (pad m ([] ++ [x00])). rewrite pad_app_zero.
  unfold pad. rewrite firstn_nil, Nat.sub_0_r. reflexivity.
Qed.

(** [cobs::encode] on the buffer of [encode_vec] runs to [finalize]. *)
Lemma encode_run source :
  Cobs.encode source (repeat x00 (Cobs.max_encoding_length (length source)))
  = Some (Cobs.encoder_finalize
            (enc_at (Cobs.max_encoding_length (length source))
                    (fst (layout [] [] source)) (snd (layout [] [] source)))).
Proof.
  unfold Cobs.encode. rewrite encoder_new_layout, encoder_push_layout;
    [reflexivity | intros [] | cbn [length]; lia | apply layout_mark_bound].
Qed.

(** [cobs::encode_vec] is the block stream cut to [max_encoding_length]. *)
Lemma encode_vec_eq source :
  Cobs.encode_vec source
  = firstn (Cobs.max_encoding_length (length source)) (Cobs.encode_go [] source).
Proof.
  destruct source as [|b s]; [reflexivity|].
  unfold Cobs.encode_vec. rewrite encode_run.
  pose proof (encode_go_layout (b :: s) [] []) as E. cbn [app] in E. rewrite E.
  rewrite <- (encoder_finalize_layout _ _ _ (layout_mark_bound (b :: s))
                (layout_nonempty (b :: s) ltac:(discriminate))).
  destruct (Cobs.encoder_finalize _). reflexivity.
Qed.

End EncoderLayout.

(** ** What the cut leaves: the stream itself, or all of it but a final
    [0x01] after whole runs of 254 non-zero bytes *)

Section EncoderCut.
Import CobsLayout.

Local Ltac lens := repeat progress (rewrite ?length_app in *; cbn [length] in * ).
Local Ltac same :=
  repeat progress (rewrite <- ?app_assoc; cbn [app]); repeat first [reflexivity | lia | f_equal].

Lemma encode_go_run c : forall blk r,
  length blk + length c = 254 -> c <> [] -> ~ In x00 blk -> ~ In x00 c ->
  Cobs.encode_go blk (c ++ r) = xff :: blk ++ c ++ Cobs.encode_go [] r.
Proof.
  induction c as [|x c IH]; intros blk r Hl Hc Hb Hnz; [contradiction|].
  assert (Hx : x <> x00) by (intro E; apply Hnz; left; congruence).
  rewrite <- app_comm_cons. cbn [Cobs.encode_go]. rewrite eqb_x00_false by exact Hx.
  destruct c as [|y c].
  - cbn [length] in Hl. rewrite (proj2 (Nat.eqb_eq _ _)) by lia. same.
  - cbn [length] in Hl. rewrite (proj2 (Nat.eqb_neq _ _)) by lia.
    rewrite IH.
    + same.
    + lens. lia.
    + discriminate.
    + rewrite in_app_iff. intros [H | [H | []]]; [exact (Hb H) | congruence].
    + intro H. apply Hnz. right. exact H.
Qed.

Lemma encode_go_block q : forall blk r,
  length blk + length q <= 253 -> ~ In x00 q ->
  Cobs.encode_go blk (q ++ x00 :: r)
  = Cobs.code_byte (length blk + length q + 1) :: blk ++ q ++ Cobs.encode_go [] r.
Proof.
  induction q as [|x q IH]; intros blk r Hl Hnz.
  - cbn [app Cobs.encode_go length]. change (Byte.eqb x00 x00) with true. cbv iota.
    rewrite Nat.add_0_r. reflexivity.
  - assert (Hx : x <> x00) by (intro E; apply Hnz; left; congruence).
    rewrite <- app_comm_cons. cbn [Cobs.encode_go]. rewrite eqb_x00_false by exact Hx.
    cbn [length] in Hl. rewrite (proj2 (Nat.eqb_neq _ _)) by lia.
    rewrite IH; [lens; same | lens; lia | intro H; apply Hnz; right; exact H].
Qed.

Lemma encode_go_short q : forall blk,
  length blk + length q <= 253 -> ~ In x00 q ->
  Cobs.encode_go blk q = Cobs.code_byte (length blk + length q + 1) :: blk ++ q.
Proof.
  induction q as [|x q IH]; intros blk Hl Hnz.
  - cbn [Cobs.encode_go length]. rewrite Nat.add_0_r, app_nil_r. reflexivity.
  - assert (Hx : x <> x00) by (intro E; apply Hnz; left; congruence).
    cbn [Cobs.encode_go]. rewrite eqb_x00_false by exact Hx.
    cbn [length] in Hl. rewrite (proj2 (Nat.eqb_neq _ _)) by lia.
    rewrite IH; [lens; same | lens; lia | intro H; apply Hnz; right; exact H].
Qed.

(** Every payload starts with [k] non-zero bytes, or with fewer before a
    zero, or is fewer than [k] non-zero bytes. *)
Lemma split_runs k : forall p : list byte,
  (exists c r, p = c ++ r /\ length c = k /\ ~ In x00 c) \/
  (exists q r, p = q ++ x00 :: r /\ length q < k /\ ~ In x00 q) \/
  (~ In x00 p /\ length p < k).
Proof.
  induction k as [|k IH]; intro p.
  - left. exists [], p. split; [reflexivity | split; [reflexivity | intros []]].
  - destruct p as [|x p]; [right; right; split; [intros [] | cbn [length]; lia]|].
    destruct (Byte.eqb x x00) eqn:Ex.
    + apply Byte.byte_dec_bl in Ex. subst x. right; left.
      exists [], p. split; [reflexivity | split; [cbn [length]; lia | intros []]].
    + assert (Hx : x <> x00) by (intro E; subst; discriminate).
      destruct (IH p) as [(c & r & -> & Hl & Hnz) | [(q & r & -> & Hl & Hnz) | (Hnz & Hl)]].
      * left. exists (x :: c), r. split; [reflexivity|]. split; [cbn [length]; lia|].
        intros [H | H]; [congruence | exact (Hnz H)].
      * right; left. exists (x :: q), r. split; [reflexivity|]. split; [cbn [length]; lia|].
        intros [H | H]; [congruence | exact (Hnz H)].
      * right; right. split; [|cbn [length]; lia].
        intros [H | H]; [congruence | exact (Hnz H)].
Qed.

Lemma full_runs_length p : full_runs p -> exists k, length p = 254 * k /\ 0 < k.
Proof.
  induction 1 as [c Hc _ | c r Hc _ _ (k & Hk & _)].
  - exists 1. lia.
  - exists (S k). rewrite length_app. lia.
Qed.

Lemma max_enc_254 n :
  Cobs.max_encoding_length (254 + n) = 255 + Cobs.max_encoding_length n.
Proof.
  unfold Cobs.max_encoding_length. replace (254 + n) with (n + 1 * 254) by lia.
  rewrite Nat.div_add, Nat.Div0.mod_add by lia. lia.
Qed.

Lemma encode_go_cut n : forall p, length p <= n -> p <> [] ->
  firstn (Cobs.max_encoding_length (length p)) (Cobs.encode_go [] p) = Cobs.encode_go [] p \/
  (full_runs p /\
   Cobs.encode_go [] p
   = firstn (Cobs.max_encoding_length (length p)) (Cobs.encode_go [] p) ++ [x01]).
Proof.
  induction n as [|n IH]; intros p Hlen Hne.
  { destruct p; [contradiction | cbn [length] in Hlen; lia]. }
  destruct (split_runs 254 p)
    as [(c & r & -> & Hc & Hnz) | [(q & r & -> & Hq & Hnz) | (Hnz & Hp)]].
  - (* a run of 254 non-zero bytes comes first *)
    rewrite (encode_go_run c [] r);
      [| cbn [length]; lia | intro E; rewrite E in Hc; discriminate Hc | intros [] | exact Hnz].
    cbn [app]. rewrite length_app, Hc, max_enc_254 in *.
    change (xff :: c ++ Cobs.encode_go [] r) with ((xff :: c) ++ Cobs.encode_go [] r).
    replace (255 + Cobs.max_encoding_length (length r))
      with (length (xff :: c) + Cobs.max_encoding_length (length r)) by (cbn [length]; lia).
    rewrite firstn_length_app.
    destruct r as [|b r].
    + right. split; [rewrite app_nil_r; apply full_runs_one; assumption|].
      change (Cobs.encode_go [] []) with [x01].
      change (firstn (Cobs.max_encoding_length (length (@nil byte))) [x01]) with (@nil byte).
      rewrite app_nil_r. reflexivity.
    + destruct (IH (b :: r) ltac:(lia) ltac:(discriminate)) as [E | [Hf E]].
      * left. rewrite E. reflexivity.
      * right. split; [apply full_runs_more; assumption|].
        rewrite <- app_assoc, <- E. reflexivity.
  - (* a block closed by a zero comes first: nothing is cut *)
    left. apply firstn_all2.
    rewrite (encode_go_block q [] r); [| cbn [length]; lia | exact Hnz].
    assert (Hr : length (Cobs.encode_go [] r) <= Cobs.max_encoding_length (length r) \/
                 (length (Cobs.encode_go [] r) = Cobs.max_encoding_length (length r) + 1 /\
                  exists k, length r = 254 * k)).
    { destruct r as [|b r'].
      - right. split; [reflexivity | exists 0; reflexivity].
      - rewrite length_app in Hlen. cbn [length] in Hlen.
        destruct (IH (b :: r') ltac:(cbn [length]; lia) ltac:(discriminate)) as [E | [Hf E]].
        + left. rewrite <- E at 1. rewrite length_firstn. apply Nat.le_min_l.
        + right. destruct (full_runs_length _ Hf) as (k & Hk & _).
          split; [| exists k; exact Hk].
          apply (f_equal (@length byte)) in E. rewrite length_app, length_firstn in E.
          cbn [length] in *. lia. }
    destruct Hr as [Hr | (Hr & k & Hk)]; lens;
      destruct (max_enc_split (length q + S (length r))) as (q1 & r1 & H1 & H1' & ->);
      destruct (max_enc_split (length r)) as (q2 & r2 & H2 & H2' & E2); rewrite E2 in Hr;
      destruct (Nat.ltb_spec 0 r1), (Nat.ltb_spec 0 r2); lia.
  - (* fewer than 254 non-zero bytes: nothing is cut *)
    left. apply firstn_all2.
    rewrite (encode_go_short p []); [| cbn [length]; lia | exact Hnz].
    cbn [length app]. destruct (max_enc_split (length p)) as (q1 & r1 & H1 & H1' & ->).
    destruct p; [contradiction|]. cbn [length] in *. destruct (Nat.ltb_spec 0 r1); lia.
Qed.

(** Decoding whole runs of 254 non-zero bytes without the final [0x01]. *)
Lemma push_full_runs p : full_runs p ->
  exists T, Cobs.encode_go [] p = T ++ [x01] /\
    forall st dest tail, st = Cobs.Idle \/ st = Cobs.Grab 0 ->
      Cobs.push st dest (T ++ x00 :: tail) = Cobs.Complete (rev (Cobs.enter st dest) ++ p).
Proof.
  assert (Hrun : forall c st dest rest, length c = 254 -> ~ In x00 c ->
            st = Cobs.Idle \/ st = Cobs.Grab 0 ->
            Cobs.push st dest (xff :: c ++ rest)
            = Cobs.push (Cobs.Grab 0) (rev c ++ Cobs.enter st dest) rest).
  { intros c st dest rest Hc Hnz Hst.
    transitivity (Cobs.push (Cobs.Grab 254) (Cobs.enter st dest) (c ++ rest));
      [destruct Hst as [-> | ->]; reflexivity|].
    rewrite <- Hc, <- (Nat.add_0_r (length c)).
    apply (push_block Cobs.Grab feed_grab_data). exact Hnz. }
  induction 1 as [c Hc Hnz | c r Hc Hnz _ (T & ET & HT)].
  - exists (xff :: c). split.
    + rewrite <- (app_nil_r c) at 1.
      rewrite (encode_go_run c [] []);
        [reflexivity | cbn [length]; lia | intro E; rewrite E in Hc; discriminate Hc
        | intros [] | exact Hnz].
    + intros st dest tail Hst. cbn [app]. rewrite (Hrun c st dest _ Hc Hnz Hst).
      change (Cobs.push (Cobs.Grab 0) (rev c ++ Cobs.enter st dest) (x00 :: tail))
        with (Cobs.Complete (rev (rev c ++ Cobs.enter st dest))).
      rewrite rev_app_distr, rev_involutive. reflexivity.
  - exists (xff :: c ++ T). split.
    + rewrite (encode_go_run c [] r);
        [| cbn [length]; lia | intro E; rewrite E in Hc; discriminate Hc | intros [] | exact Hnz].
      rewrite ET. same.
    + intros st dest tail Hst. cbn [app]. rewrite <- app_assoc.
      rewrite (Hrun c st dest _ Hc Hnz Hst).
      rewrite (HT (Cobs.Grab 0) _ tail (or_intror eq_refl)). cbn [Cobs.enter].
      rewrite rev_app_distr, rev_involutive, app_assoc. reflexivity.
Qed.

End EncoderCut.

Lemma cobs_decode_encode (p : list byte) : p <> [] ->
  Cobs.decode_vec (Cobs.encode_vec p ++ [x00]) = Some p.
Proof.
  intro Hp. rewrite encode_vec_eq. unfold Cobs.decode_vec.
  destruct (encode_go_cut (length p) p (le_n _) Hp) as [E | [Hf E]].
  - rewrite E. rewrite push_encode_go; unfold Cobs.boundary; cbn; auto; lia.
  - destruct (push_full_runs p Hf) as (T & ET & HT).
    rewrite ET in E. apply app_inj_tail in E as [E _]. rewrite ET, <- E.
    rewrite (HT Cobs.Idle [] []) by (left; reflexivity). reflexivity.
Qed.

Lemma encode_vec_nonzero (p : list byte) : ~ In x00 (Cobs.encode_vec p).
Proof.
  rewrite encode_vec_eq. intro H. apply (encode_go_nonzero p []); [intros [] | cbn; lia |].
  rewrite <- (firstn_skipn (Cobs.max_encoding_length (length p)) (Cobs.encode_go [] p)).
  apply in_app_iff. left. exact H.
Qed.

Lemma encode_go_zeros (n : nat) : Cobs.encode_go [] (repeat x00 n) = repeat x01 (S n).
Proof.
  induction n as [|n IH]; [reflexivity|].
  cbn [repeat Cobs.encode_go Byte.eqb]. rewrite IH. reflexivity.
Qed.

Lemma encode_vec_zeros (n : nat) : 0 < n -> Cobs.encode_vec (repeat x00 n) = repeat x01 (S n).
Proof.
  intro Hn. rewrite encode_vec_eq, encode_go_zeros. apply firstn_all2.
  rewrite !repeat_length. destruct (max_enc_split n) as (q & r & H1 & H2 & ->).
  destruct (Nat.ltb_spec 0 r); lia.
Qed.

(** ** The receive loop *)

Section Receiver.
Import Transport.

Lemma position_zero_none l : ~ In x00 l -> position_zero l = None.
Proof.
  induction l as [|b l IH]; intro Hnz; [reflexivity|].
  simpl in Hnz. apply Decidable.not_or in Hnz as [Hb Hnz].
  cbn [position_zero]. rewrite eqb_x00_false by congruence. rewrite IH by exact Hnz.
  reflexivity.
Qed.

Lemma position_zero_frame a r : ~ In x00 a -> position_zero (a ++ x00 :: r) = Some (length a).
Proof.
  induction a as [|b a IH]; intro Hnz; [reflexivity|].
  simpl in Hnz. apply Decidable.not_or in Hnz as [Hb Hnz].
  cbn [position_zero app]. rewrite eqb_x00_false by congruence. rewrite IH by exact Hnz.
  reflexivity.
Qed.

Lemma firstn_frame (a r : list byte) (x : byte) : firstn (S (length a)) (a ++ x :: r) = a ++ [x].
Proof.
  induction a as [|b a IH]; [reflexivity|].
  cbn [length]. rewrite <- !app_comm_cons, firstn_cons, IH. reflexivity.
Qed.

Lemma skipn_frame (a r : list byte) (x : byte) : skipn (S (length a)) (a ++ x :: r) = r.
Proof.
  induction a as [|b a IH]; [reflexivity|].
  cbn [length]. rewrite <- app_comm_cons, skipn_cons, IH. reflexivity.
Qed.

Lemma rx_drain_overflow buf :
  (rx_cap < N.of_nat (length buf))%N -> rx_drain buf = Return (Err RxOverflow) [].
Proof.
  intro H. unfold rx_drain. cbn [drain_rounds].
  apply N.ltb_lt in H. rewrite H. reflexivity.
Qed.

Lemma rx_drain_need buf :
  ~ In x00 buf -> (N.of_nat (length buf) <= rx_cap)%N -> rx_drain buf = NeedRead buf.
Proof.
  intros Hnz Hc. unfold rx_drain. cbn [drain_rounds].
  replace (rx_cap <? N.of_nat (length buf))%N with false by (symmetry; apply N.ltb_ge; exact Hc).
  rewrite position_zero_none by exact Hnz. reflexivity.
Qed.

Lemma rx_drain_frame p rest : p <> [] ->
  (N.of_nat (length (Cobs.encode_vec p ++ x00 :: rest)) <= rx_cap)%N ->
  rx_drain (Cobs.encode_vec p ++ x00 :: rest) = Return (Ok p) rest.
Proof.
  intros Hp Hc. unfold rx_drain. cbn [drain_rounds].
  replace (rx_cap <? _)%N with false by (symmetry; apply N.ltb_ge; exact Hc).
  rewrite position_zero_frame by apply encode_vec_nonzero.
  cbv beta iota zeta. rewrite firstn_frame, skipn_frame, cobs_decode_encode by exact Hp.
  reflexivity.
Qed.

Lemma receive_inner_eq buf reads :
  receive_inner buf reads =
  match rx_drain buf with
  | Return r buf' => (r, buf', reads)
  | NeedRead buf' =>
      match reads with
      | [] => (Err ConnError, buf', [])
      | [] :: reads' => (Err ConnError, buf', reads')
      | chunk :: reads' => receive_inner (buf' ++ chunk) reads'
      end
  end.
Proof. destruct reads; reflexivity. Qed.

Lemma receive_inner_return buf r buf' reads :
  rx_drain buf = Return r buf' -> receive_inner buf reads = (r, buf', reads).
Proof. intro H. rewrite receive_inner_eq, H. reflexivity. Qed.

Lemma receive_inner_read buf buf' chunk reads :
  rx_drain buf = NeedRead buf' -> chunk <> [] ->
  receive_inner buf (chunk :: reads) = receive_inner (buf' ++ chunk) reads.
Proof.
  intros H Hc. rewrite receive_inner_eq, H. destruct chunk; [contradiction | reflexivity].
Qed.

Lemma frame_split (buf C E R : list byte) :
  ~ In x00 E -> buf ++ C = E ++ x00 :: R ->
  (exists r, buf = E ++ x00 :: r /\ r ++ C = R) \/
  (~ In x00 buf /\ length buf <= length E /\ exists l, C = l ++ x00 :: R /\ E = buf ++ l).
Proof.
  intros Hnz H. apply app_eq_app in H as [l [[Hb Hl] | [He Hl]]].
  - destruct l as [|b l].
    + right. rewrite app_nil_r in Hb. subst buf. split; [exact Hnz | split; [lia|]].
      exists []. rewrite app_nil_r. split; [symmetry; exact Hl | reflexivity].
    + left. injection Hl as -> Hl. exists l. split; [exact Hb | symmetry; exact Hl].
  - right. subst E. split; [|split].
    + intro Hin. apply Hnz, in_app_iff. left. exact Hin.
    + rewrite length_app. lia.
    + exists l. split; [exact Hl | reflexivity].
Qed.

Lemma receive_one reads : forall buf p ps,
  Forall read_ok reads -> frame_fits p -> p <> [] ->
  buf ++ concat reads = concat (map send_inner (p :: ps)) ->
  (N.of_nat (length buf) <= rx_cap)%N ->
  exists buf' reads',
    receive_inner buf reads = (Ok p, buf', reads') /\ Forall read_ok reads' /\
    buf' ++ concat reads' = concat (map send_inner ps) /\
    (N.of_nat (length buf') <= rx_cap)%N.
Proof.
  induction reads as [|c reads IH]; intros buf p ps Hr Hp Hne Hcat Hc;
    change (concat (map send_inner (p :: ps)))
      with (send_inner p ++ concat (map send_inner ps)) in Hcat;
    unfold send_inner in Hcat; rewrite <- app_assoc in Hcat; cbn [app] in Hcat;
    apply frame_split in Hcat as [[r [Hb Hr']] | [Hnz [Hlen [l [Hl He]]]]];
    try apply encode_vec_nonzero.
  - (* the frame is complete in the accumulator *)
    subst buf. exists r, []. split; [|split; [constructor | split]].
    + apply receive_inner_return, rx_drain_frame; [exact Hne | exact Hc].
    + exact Hr'.
    + rewrite length_app in Hc. cbn [length] in Hc. lia.
  - (* end of stream before the terminator *)
    destruct l; discriminate Hl.
  - subst buf. exists r, (c :: reads). split; [|split; [exact Hr | split]].
    + apply receive_inner_return, rx_drain_frame; [exact Hne | exact Hc].
    + exact Hr'.
    + rewrite length_app in Hc. cbn [length] in Hc. lia.
  - (* a strict prefix of the frame is buffered: read one more chunk *)
    apply Forall_cons_iff in Hr as [[Hcne Hclen] Hr'].
    assert (Hfit := Hp). unfold frame_fits in Hfit.
    assert (HbE : length buf <= length (Cobs.encode_vec p)) by exact Hlen.
    rewrite receive_inner_read with (buf' := buf)
      by first [exact Hcne | apply rx_drain_need; [exact Hnz | lia]].
    apply IH; [exact Hr' | exact Hp | exact Hne | | ].
    + change (concat (map send_inner (p :: ps)))
        with (send_inner p ++ concat (map send_inner ps)).
      unfold send_inner. rewrite He. cbn [concat] in Hl.
      rewrite <- !app_assoc, Hl. reflexivity.
    + rewrite length_app. lia.
Qed.

Lemma rx_run_S n buf reads :
  rx_run (S n) buf reads =
  let '(r, buf', reads') := receive_inner buf reads in
  let '(rs, buf'', reads'') := rx_run n buf' reads' in
  (r :: rs, buf'', reads'').
Proof. reflexivity. Qed.

Lemma rx_run_frames ps : forall buf reads,
  Forall read_ok reads -> Forall frame_fits ps -> Forall (fun p => p <> []) ps ->
  buf ++ concat reads = concat (map send_inner ps) ->
  (N.of_nat (length buf) <= rx_cap)%N ->
  fst (fst (rx_run (S (length ps)) buf reads)) = map Ok ps ++ [Err ConnError].
Proof.
  induction ps as [|p ps IH]; intros buf reads Hr Hps Hne Hcat Hc.
  - cbn [map concat] in Hcat. apply app_eq_nil in Hcat as [-> Hcat].
    destruct reads as [|c reads]; [reflexivity|].
    apply Forall_cons_iff in Hr as [[Hcne _] _].
    cbn [concat] in Hcat. apply app_eq_nil in Hcat as [-> _]. contradiction.
  - apply Forall_cons_iff in Hps as [Hp Hps]. apply Forall_cons_iff in Hne as [Hp0 Hne].
    destruct (receive_one reads buf p ps Hr Hp Hp0 Hcat Hc)
      as (buf' & reads' & Hrecv & Hr' & Hcat' & Hc').
    specialize (IH buf' reads' Hr' Hps Hne Hcat' Hc').
    cbn [length]. rewrite rx_run_S, Hrecv. cbv beta iota zeta.
    destruct (rx_run (S (length ps)) buf' reads') as [[rs b] rd].
    cbn [fst] in IH |- *. rewrite IH. reflexivity.
Qed.

Lemma concat_repeat_repeat (x : byte) (n k : nat) :
  concat (repeat (repeat x n) k) = repeat x (k * n).
Proof.
  induction k as [|k IH]; [reflexivity|].
  change (concat (repeat (repeat x n) (S k))) with (repeat x n ++ concat (repeat (repeat x n) k)).
  rewrite IH, <- repeat_app. reflexivity.
Qed.

Lemma repeat_nonzero (n : nat) : ~ In x00 (repeat x01 n).
Proof. intro H. apply repeat_spec in H. discriminate. Qed.

Lemma read_ok_block : read_ok (repeat x01 1024).
Proof.
  split; [|rewrite repeat_length; lia].
  intro E. apply (f_equal (@length byte)) in E. rewrite repeat_length in E. discriminate.
Qed.

Lemma reads_blocks_ok (k : nat) : Forall read_ok (repeat (repeat x01 1024) k).
Proof.
  apply Forall_forall. intros c Hc. apply repeat_spec in Hc. subst c. exact read_ok_block.
Qed.

(** Reading [k] blocks of 1024 non-zero bytes while the accumulator stays
    within the cap only appends them to the accumulator. *)
Lemma rx_accumulate k : forall buf rest,
  ~ In x00 buf -> (N.of_nat (length buf + k * 1024) <= rx_cap)%N ->
  receive_inner buf (repeat (repeat x01 1024) k ++ rest)
  = receive_inner (buf ++ repeat x01 (k * 1024)) rest.
Proof.
  induction k as [|k IH]; intros buf rest Hnz Hc.
  - rewrite Nat.mul_0_l. cbn [repeat app]. rewrite app_nil_r. reflexivity.
  - change (repeat (repeat x01 1024) (S k) ++ rest)
      with (repeat x01 1024 :: (repeat (repeat x01 1024) k ++ rest)).
    rewrite receive_inner_read with (buf' := buf).
    + rewrite IH.
      * rewrite <- app_assoc, <- repeat_app. reflexivity.
      * rewrite in_app_iff. intros [H | H]; [exact (Hnz H) | exact (repeat_nonzero _ H)].
      * rewrite length_app, repeat_length. lia.
    + apply rx_drain_need; [exact Hnz | lia].
    + apply read_ok_block.
Qed.

(** 1025 blocks of 1024 non-zero bytes take a fresh receiver past the cap:
    the 1025th read leaves [1 MiB + 1024] bytes in the accumulator. *)
Lemma rx_overflow_after_blocks rest :
  receive_inner [] (repeat (repeat x01 1024) 1025 ++ rest) = (Err RxOverflow, [], rest).
Proof.
  replace 1025 with (1024 + 1) by reflexivity.
  rewrite repeat_app, <- app_assoc, rx_accumulate.
  - rewrite app_nil_l.
    change (repeat (repeat x01 1024) 1 ++ rest) with (repeat x01 1024 :: rest).
    rewrite receive_inner_read with (buf' := repeat x01 (1024 * 1024)).
    + apply receive_inner_return, rx_drain_overflow.
      rewrite length_app, !repeat_length. unfold rx_cap. lia.
    + apply rx_drain_need; [apply repeat_nonzero|].
      rewrite repeat_length. unfold rx_cap. lia.
    + apply read_ok_block.
  - intros [].
  - cbn [length]. unfold rx_cap. lia.
Qed.

End Receiver.

(** ** Framing claims *)

(** C1 (as amended). Every frame written by [send_inner] is the COBS
    encoding, free of [0x00], followed by one [0x00] terminator; and for
    non-empty payloads, as long as each payload's encoding leaves room in
    the 1 MiB accumulator for one more 1024-byte read, feeding the
    concatenated frames to a fresh receiver in any split into reads yields
    exactly the payloads, in order, and then only the end of the stream. *)
Theorem framer_roundtrip_within_cap (ps reads : list (list byte)) :
  Forall (fun p => p <> []) ps ->
  Forall Transport.frame_fits ps -> Forall Transport.read_ok reads ->
  concat reads = concat (map Transport.send_inner ps) ->
  Forall (fun p => exists e, Transport.send_inner p = e ++ [x00] /\ ~ In x00 e) ps /\
  fst (fst (Transport.rx_run (S (length ps)) [] reads))
  = map Ok ps ++ [Err Transport.ConnError].
Proof.
  intros Hne Hps Hr Hcat. split.
  - apply Forall_forall. intros p _. exists (Cobs.encode_vec p).
    split; [reflexivity | apply encode_vec_nonzero].
  - apply rx_run_frames; [exact Hr | exact Hps | exact Hne | exact Hcat |].
    cbn [length]. unfold Transport.rx_cap. lia.
Qed.

(** The second payload is one whole run of 254 non-zero bytes, whose
    encoding has no final code byte. *)
Lemma framer_roundtrip_within_cap_witness :
  let ps := [[x11; x00]; repeat x22 254] in
  let reads := [firstn 3 (concat (map Transport.send_inner ps));
                skipn 3 (concat (map Transport.send_inner ps))] in
  Forall (fun p => p <> []) ps /\
  Forall Transport.frame_fits ps /\
  Forall Transport.read_ok reads /\
  concat reads = concat (map Transport.send_inner ps) /\
  Forall (fun p => exists e, Transport.send_inner p = e ++ [x00] /\ ~ In x00 e) ps /\
  fst (fst (Transport.rx_run (S (length ps)) [] reads)) = map Ok ps ++ [Err Transport.ConnError].
Proof.
  intros ps reads.
  assert (H0 : Forall (fun p => p <> []) ps).
  { apply Forall_cons; [|apply Forall_cons; [|apply Forall_nil]]; discriminate. }
  assert (H1 : Forall Transport.frame_fits ps).
  { apply Forall_cons; [|apply Forall_cons; [|apply Forall_nil]];
    unfold Transport.frame_fits; apply N.leb_le; vm_compute; reflexivity. }
  assert (H2 : Forall Transport.read_ok reads).
  { apply Forall_cons; [|apply Forall_cons; [|apply Forall_nil]];
    (split; [vm_compute; discriminate | apply Nat.leb_le; vm_compute; reflexivity]). }
  assert (H3 : concat reads = concat (map Transport.send_inner ps)) by (vm_compute; reflexivity).
  split; [exact H0 | split; [exact H1 | split; [exact H2 | split; [exact H3 |]]]].
  exact (framer_roundtrip_within_cap ps reads H0 H1 H2 H3).
Defined.

(** C1 counterexample: a payload of [1025 * 1024] zero bytes, whose frame
    is [1025 * 1024 + 1] bytes [0x01] and the terminator, sent in reads of
    1024 bytes. The receiver fails with [RxOverflow] instead of yielding it,
    and then yields an empty frame that was never sent. *)
Lemma framer_roundtrip_large_frame_fails :
  repeat x00 (1025 * 1024) <> [] /\
  Forall Transport.read_ok (repeat (repeat x01 1024) 1025 ++ [[x01; x00]]) /\
  concat (repeat (repeat x01 1024) 1025 ++ [[x01; x00]])
  = concat (map Transport.send_inner [repeat x00 (1025 * 1024)]) /\
  fst (fst (Transport.rx_run 2 [] (repeat (repeat x01 1024) 1025 ++ [[x01; x00]])))
  = [Err Transport.RxOverflow; Ok []].
Proof.
  split; [|split; [|split]].
  - intro E. apply (f_equal (@length byte)) in E. rewrite repeat_length in E.
    cbn [length] in E. lia.
  - apply Forall_app. split; [apply reads_blocks_ok|].
    apply Forall_cons; [split; [discriminate | cbn; lia] | apply Forall_nil].
  - rewrite concat_app, concat_repeat_repeat.
    cbn [map concat]. unfold Transport.send_inner.
    rewrite (encode_vec_zeros (1025 * 1024)) by (apply Nat.ltb_lt; vm_compute; reflexivity).
    change (repeat x01 (S (1025 * 1024))) with (x01 :: repeat x01 (1025 * 1024)).
    rewrite repeat_cons, <- !app_assoc. cbn [app]. reflexivity.
  - rewrite rx_run_S, rx_overflow_after_blocks. vm_compute. reflexivity.
Qed.

(** C2 (as amended). Whenever the accumulator holds more than 1 MiB at
    the top of the receive loop, the call clears it and fails with
    [RxOverflow] without reading; no resynchronisation state is kept, so
    every later call behaves exactly as a fresh receiver on the rest of the
    stream. *)
Theorem rx_overflow_resets (n : nat) (buf : list byte) (reads : list (list byte)) :
  (Transport.rx_cap < N.of_nat (length buf))%N ->
  Transport.rx_run (S n) buf reads =
  (let '(rs, buf', reads') := Transport.rx_run n [] reads in
   (Err Transport.RxOverflow :: rs, buf', reads')).
Proof.
  intro H. rewrite rx_run_S.
  rewrite (receive_inner_return _ _ _ _ (rx_drain_overflow buf H)).
  reflexivity.
Qed.

Lemma rx_overflow_resets_witness :
  (Transport.rx_cap < N.of_nat (length (repeat x01 (1024 * 1024 + 1))))%N /\
  Transport.rx_run 2 (repeat x01 (1024 * 1024 + 1)) [[x02; x41; x00]] =
  (let '(rs, buf', reads') := Transport.rx_run 1 [] [[x02; x41; x00]] in
   (Err Transport.RxOverflow :: rs, buf', reads')).
Proof.
  assert (H : (Transport.rx_cap < N.of_nat (length (repeat x01 (1024 * 1024 + 1))))%N).
  { apply N.ltb_lt. vm_compute. reflexivity. }
  split; [exact H | exact (rx_overflow_resets 1 _ [[x02; x41; x00]] H)].
Defined.

(** C2 counterexample: more than 1 MiB without a terminator, then the
    bytes [02 41 00]. After the single [RxOverflow] the receiver does not
    skip to the byte after the next [0x00]: it decodes [02 41] into the
    frame [41]. *)
Lemma rx_overflow_no_resync :
  Forall Transport.read_ok (repeat (repeat x01 1024) 1025 ++ [[x02; x41; x00]]) /\
  ~ In x00 (concat (repeat (repeat x01 1024) 1025)) /\
  (Transport.rx_cap < N.of_nat (length (concat (repeat (repeat x01 1024) 1025))))%N /\
  fst (fst (Transport.rx_run 2 [] (repeat (repeat x01 1024) 1025 ++ [[x02; x41; x00]])))
  = [Err Transport.RxOverflow; Ok [x41]].
Proof.
  split; [|split; [|split]].
  - apply Forall_app. split; [apply reads_blocks_ok|].
    apply Forall_cons; [split; [discriminate | cbn; lia] | apply Forall_nil].
  - rewrite concat_repeat_repeat. apply repeat_nonzero.
  - rewrite concat_repeat_repeat, repeat_length. unfold Transport.rx_cap. lia.
  - rewrite rx_run_S, rx_overflow_after_blocks. vm_compute. reflexivity.
Qed.

(** ** Connecting *)

Section ConnectProofs.
Import Icd Connect.
Local Open Scope N_scope.

Lemma ping_check_result (env : Env) (s : Socket) :
  trace (ping_check env s) = [RqPing 42] /\
  socket (ping_check env s) = Some s /\
  (ping_reply env 42 = Ok 42 -> result (ping_check env s) = Ok MkPoststationClient) /\
  (ping_reply env 42 <> Ok 42 -> result (ping_check env s) = Err ConnectError.Protocol) /\
  (forall c, result (ping_check env s) = Ok c -> ping_reply env 42 = Ok 42).
Proof.
  unfold ping_check; cbn.
  destruct (ping_reply env 42) as [r|h]; cbn.
  - destruct (N.eqb r 42) eqn:E; cbn.
    + apply N.eqb_eq in E; subst r.
      repeat split; intros; first [reflexivity | congruence].
    + apply N.eqb_neq in E.
      repeat split; intros; first [reflexivity | congruence].
  - repeat split; intros; first [reflexivity | congruence].
Qed.

Lemma connect_insecure_pipe (env : Env) :
  pipe_insecure env = true ->
  connect_insecure env = ping_check env {| nodelay := true |}.
Proof.
  unfold pipe_insecure, connect_insecure.
  destruct (tcp_connect_ok env), (peer_addr_ok env), (set_nodelay_ok env);
    cbn; congruence.
Qed.

Lemma connect_insecure_no_pipe (env : Env) :
  pipe_insecure env = false ->
  trace (connect_insecure env) = [] /\ result (connect_insecure env) = Err ConnectError.Connection.
Proof.
  unfold pipe_insecure, connect_insecure.
  destruct (tcp_connect_ok env), (peer_addr_ok env), (set_nodelay_ok env);
    cbn; try discriminate; auto.
Qed.

Lemma connect_with_ca_pem_pipe (env : Env) :
  pipe_with_ca_pem env = true ->
  connect_with_ca_pem env = ping_check env {| nodelay := false |}.
Proof.
  unfold pipe_with_ca_pem, connect_with_ca_pem.
  destruct (ca_cert_ok env), (tcp_connect_ok env), (set_nodelay_ok env),
    (peer_addr_ok env), (tls_connect_ok env); cbn; congruence.
Qed.

Lemma connect_with_ca_pem_no_pipe (env : Env) :
  pipe_with_ca_pem env = false ->
  trace (connect_with_ca_pem env) = [] /\
  (result (connect_with_ca_pem env) = Err ConnectError.CaCertificate \/
   result (connect_with_ca_pem env) = Err ConnectError.Connection).
Proof.
  unfold pipe_with_ca_pem, connect_with_ca_pem.
  destruct (ca_cert_ok env), (tcp_connect_ok env), (set_nodelay_ok env),
    (peer_addr_ok env), (tls_connect_ok env); cbn; try discriminate; auto.
Qed.

End ConnectProofs.

Section ConnectClaims.
Import Icd Connect.
Local Open Scope N_scope.

(** C3: on both connect paths the only request sent is the ping with the
    literal token 42, sent once the pipe is up and never before; a client
    is returned only when that ping came back as [Ok 42], and once the
    pipe is up a different token or a failed exchange gives
    [ConnectError::Protocol]. *)
Theorem connect_ping_gate (env : Env) :
  ((forall c, result (connect_insecure env) = Ok c ->
      trace (connect_insecure env) = [RqPing 42] /\ ping_reply env 42 = Ok 42) /\
   (pipe_insecure env = false -> trace (connect_insecure env) = []) /\
   (pipe_insecure env = true ->
      trace (connect_insecure env) = [RqPing 42] /\
      (ping_reply env 42 = Ok 42 -> result (connect_insecure env) = Ok MkPoststationClient) /\
      (ping_reply env 42 <> Ok 42 ->
         result (connect_insecure env) = Err ConnectError.Protocol))) /\
  ((forall c, result (connect_with_ca_pem env) = Ok c ->
      trace (connect_with_ca_pem env) = [RqPing 42] /\ ping_reply env 42 = Ok 42) /\
   (pipe_with_ca_pem env = false -> trace (connect_with_ca_pem env) = []) /\
   (pipe_with_ca_pem env = true ->
      trace (connect_with_ca_pem env) = [RqPing 42] /\
      (ping_reply env 42 = Ok 42 -> result (connect_with_ca_pem env) = Ok MkPoststationClient) /\
      (ping_reply env 42 <> Ok 42 ->
         result (connect_with_ca_pem env) = Err ConnectError.Protocol))).
Proof.
  split.
  - destruct (pipe_insecure env) eqn:P.
    + rewrite (connect_insecure_pipe env P).
      pose proof (ping_check_result env {| nodelay := true |}) as (T & _ & H1 & H2 & H3).
      split; [intros c Hc; split; [exact T | exact (H3 c Hc)] |].
      split; [discriminate |]. intros _. auto.
    + destruct (connect_insecure_no_pipe env P) as [T R].
      split; [intros c Hc; congruence |].
      split; [intros _; exact T | discriminate].
  - destruct (pipe_with_ca_pem env) eqn:P.
    + rewrite (connect_with_ca_pem_pipe env P).
      pose proof (ping_check_result env {| nodelay := false |}) as (T & _ & H1 & H2 & H3).
      split; [intros c Hc; split; [exact T | exact (H3 c Hc)] |].
      split; [discriminate |]. intros _. auto.
    + destruct (connect_with_ca_pem_no_pipe env P) as [T [R|R]];
        (split; [intros c Hc; congruence |]);
        (split; [intros _; exact T | discriminate]).
Qed.

(** The gate at work: with everything up, both paths connect after one
    ping; when the daemon answers 43, both fail with [Protocol]. *)
Lemma connect_ping_gate_witness :
  result (connect_insecure Samples.env_up) = Ok MkPoststationClient /\
  result (connect_with_ca_pem Samples.env_wrong_token) = Err ConnectError.Protocol.
Proof.
  split.
  - apply (proj2 (proj2 (proj1 (connect_ping_gate Samples.env_up))) eq_refl).
    reflexivity.
  - apply (proj2 (proj2 (proj2 (connect_ping_gate Samples.env_wrong_token))) eq_refl).
    cbn. discriminate.
Defined.

(** C9 (amended): the asymmetry is the other way round. Once its socket is
    set up, [connect_insecure] has set [TCP_NODELAY] (coalescing disabled),
    while [connect_with_ca_pem] has explicitly set it to false (coalescing
    left enabled). *)
Theorem connect_nodelay (env : Env) :
  (pipe_insecure env = true ->
     option_map coalescing (socket (connect_insecure env)) = Some false) /\
  (pipe_with_ca_pem env = true ->
     option_map coalescing (socket (connect_with_ca_pem env)) = Some true).
Proof.
  split; intros P.
  - rewrite (connect_insecure_pipe env P). reflexivity.
  - rewrite (connect_with_ca_pem_pipe env P). reflexivity.
Qed.

Lemma connect_nodelay_witness :
  option_map coalescing (socket (connect_insecure Samples.env_up)) = Some false /\
  option_map coalescing (socket (connect_with_ca_pem Samples.env_up)) = Some true.
Proof.
  split.
  - apply (proj1 (connect_nodelay Samples.env_up)). reflexivity.
  - apply (proj2 (connect_nodelay Samples.env_up)). reflexivity.
Defined.

(** C9 as stated fails: on a successful connect the TLS socket keeps
    coalescing enabled and the plaintext one has it disabled. *)
Lemma connect_nodelay_reversed :
  result (connect_with_ca_pem Samples.env_up) = Ok MkPoststationClient /\
  option_map coalescing (socket (connect_with_ca_pem Samples.env_up)) = Some true /\
  result (connect_insecure Samples.env_up) = Ok MkPoststationClient /\
  option_map coalescing (socket (connect_insecure Samples.env_up)) = Some false.
Proof. repeat split. Qed.

End ConnectClaims.

(** ** Typed RPC operations *)

Ltac in_requests H :=
  cbn in H;
  repeat match type of H with
  | _ \/ _ => destruct H as [H|H]
  end; try discriminate; try contradiction.

Section ClientProofs.
Import Icd Client.

Lemma key_eqb_true (a b : Key) : key_eqb a b = true <-> a = b.
Proof.
  unfold key_eqb. destruct (list_eq_dec Byte.byte_eq_dec a b); split; congruence.
Qed.

Lemma get_device_schemas_eq {NamedType} (d : @Daemon NamedType) (serial : N) :
  get_device_schemas d serial =
  (match schemas_reply d serial with
   | Ok r => Ok r
   | Err h => Err (from_host_err h)
   end, [RqGetSchemas serial]).
Proof.
  unfold get_device_schemas, bind, try_host, send_resp, ret.
  destruct (schemas_reply d serial); reflexivity.
Qed.

Lemma proxy_endpoint_reply {NamedType} (d : @Daemon NamedType) {Req Resp}
  (E : Endpoint Req Resp) serial seq_no body req :
  In (RqProxy req) (snd (proxy_endpoint d E serial seq_no body)) ->
  fst (proxy_endpoint d E serial seq_no body) =
    match proxy_reply d req with
    | Ok (ProxyResponse.Ok _ _ b) =>
        match from_bytes _ _ E b with Some v => Ok v | None => Err ClientError.Encoding end
    | Ok (ProxyResponse.WireErr _ _ w) =>
        Err (ClientError.Remote ("WireErr: " ++ WireError.debug w)%string)
    | Ok (ProxyResponse.OtherErr e) =>
        Err (ClientError.Remote ("Other Server Err: '" ++ e ++ "'")%string)
    | Err h => Err (from_host_err h)
    end.
Proof.
  unfold proxy_endpoint. rewrite get_device_schemas_eq.
  destruct (schemas_reply d serial) as [[rep|]|h]; cbn; intros H; try (in_requests H; fail).
  destruct (find _ _) as [schema|]; cbn in *; try (in_requests H; fail).
  destruct (to_stdvec _ _ E body) as [b|]; cbn in *; try (in_requests H; fail).
  destruct (proxy_reply d _) as [[k s bb|k s w|e]|h] eqn:P; cbn in *;
    try (destruct (from_bytes _ _ E bb) eqn:F; cbn in *);
    in_requests H; injection H as <-; rewrite P; cbn; try rewrite F; reflexivity.
Qed.

Lemma proxy_endpoint_json_reply {NamedType Value} (d : @Daemon NamedType)
  (codec : @DynCodec NamedType Value) serial path seq_no body req :
  In (RqProxy req) (snd (proxy_endpoint_json d codec serial path seq_no body)) ->
  exists rep schema,
    schemas_reply d serial = Ok (Some rep) /\
    In schema (SchemaReport.endpoints rep) /\ EndpointReport.path schema = path /\
    fst (proxy_endpoint_json d codec serial path seq_no body) =
      match proxy_reply d req with
      | Ok (ProxyResponse.Ok _ _ b) =>
          match from_slice_dyn codec (EndpointReport.resp_ty schema) b with
          | Ok v => Ok v
          | Err e => Err (ClientError.Dynamic ("Decode error: '" ++ e ++ "'")%string)
          end
      | Ok (ProxyResponse.WireErr _ _ w) =>
          Err (ClientError.Remote ("WireErr: " ++ WireError.debug w)%string)
      | Ok (ProxyResponse.OtherErr e) =>
          Err (ClientError.Remote ("Other Server Err: '" ++ e ++ "'")%string)
      | Err h => Err (from_host_err h)
      end.
Proof.
  unfold proxy_endpoint_json, attempt. rewrite get_device_schemas_eq.
  destruct (schemas_reply d serial) as [[rep|]|h] eqn:Hs; cbn; intros H;
    try (in_requests H; fail).
  destruct (find _ _) as [schema|] eqn:Fd; cbn in *; try (in_requests H; fail).
  apply find_some in Fd as [Hin Hp]. apply String.eqb_eq in Hp.
  exists rep, schema. split; [reflexivity |]. split; [exact Hin |]. split; [exact Hp |].
  destruct (to_stdvec_dyn codec _ body) as [b|]; cbn in *; try (in_requests H; fail).
  destruct (proxy_reply d _) as [[k s bb|k s w|e]|h'] eqn:P; cbn in *;
    try (destruct (from_slice_dyn codec _ bb) eqn:F; cbn in *);
    in_requests H; injection H as <-; rewrite P; cbn; try rewrite F; reflexivity.
Qed.

(** No endpoint of the list matches when [find] finds none. *)
Lemma find_none_iff {A} (f : A -> bool) (l : list A) :
  find f l = None <-> forall x, In x l -> f x = false.
Proof.
  split; [apply find_none |].
  induction l as [|x l IH]; intros H; cbn; [reflexivity |].
  rewrite (H x (or_introl eq_refl)). apply IH. intros y Hy. exact (H y (or_intror Hy)).
Qed.

Lemma stream_topic_json_started {NamedType} (d : @Daemon NamedType) serial path l :
  fst (stream_topic_json d serial path) = Ok l ->
  exists req, In (RqStartStream req) (snd (stream_topic_json d serial path)) /\
              start_reply d req = Ok (TopicStreamResult.Started (jl_stream_id l)).
Proof.
  unfold stream_topic_json, attempt. rewrite get_device_schemas_eq.
  destruct (schemas_reply d serial) as [[rep|]|h]; cbn; intros H; try discriminate.
  destruct (find _ _) as [schema|]; cbn in *; try discriminate.
  unfold subscribe_multi in *. destruct (subscribe_multi_ok d); cbn in *; try discriminate.
  destruct (start_reply d _) as [[id| | |]|h] eqn:P; cbn in *; try discriminate.
  injection H as <-. eexists. split; [right; left; reflexivity | exact P].
Qed.

Lemma stream_topic_started {NamedType} (d : @Daemon NamedType) {Msg} (T : Topic Msg) serial l :
  fst (stream_topic d T serial) = Ok l ->
  exists req, In (RqStartStream req) (snd (stream_topic d T serial)) /\
              start_reply d req = Ok (TopicStreamResult.Started (sl_stream_id l)).
Proof.
  unfold stream_topic, attempt. rewrite get_device_schemas_eq.
  destruct (schemas_reply d serial) as [[rep|]|h]; cbn; intros H; try discriminate.
  destruct (find _ _) as [schema|]; cbn in *; try discriminate.
  unfold subscribe_multi in *. destruct (subscribe_multi_ok d); cbn in *; try discriminate.
  destruct (start_reply d _) as [[id| | |]|h] eqn:P; cbn in *; try discriminate.
  injection H as <-. eexists. split; [right; left; reflexivity | exact P].
Qed.

Lemma json_recv_yields {NamedType Value} (codec : @DynCodec NamedType Value) l evs v rest :
  json_recv codec l evs = RecvSome v rest ->
  exists pre m, evs = pre ++ SubMsg m :: rest /\
    TopicStreamMsg.stream_id m = jl_stream_id l /\
    from_slice_dyn codec (TopicReport.ty (jl_schema l)) (TopicStreamMsg.msg m) = Ok v.
Proof.
  induction evs as [|[m|n|] evs IH]; cbn; intros H; try discriminate.
  - destruct (negb _) eqn:Ne.
    + apply IH in H as (pre & m' & -> & Hid & Hv).
      exists (SubMsg m :: pre), m'. auto.
    + apply negb_false_iff, N.eqb_eq in Ne.
      destruct (from_slice_dyn _ _ _) eqn:F.
      * injection H as <- <-. exists [], m. auto.
      * apply IH in H as (pre & m' & -> & Hid & Hv).
        exists (SubMsg m :: pre), m'. auto.
  - apply IH in H as (pre & m' & -> & Hid & Hv).
    exists (Lagged n :: pre), m'. auto.
Qed.

Lemma recv_yields {Msg} (T : Topic Msg) l evs v rest :
  recv T l evs = RecvSome v rest ->
  exists pre m, evs = pre ++ SubMsg m :: rest /\
    TopicStreamMsg.stream_id m = sl_stream_id l /\
    msg_from_bytes _ T (TopicStreamMsg.msg m) = Some v.
Proof.
  induction evs as [|[m|n|] evs IH]; cbn; intros H; try discriminate.
  - destruct (negb _) eqn:Ne.
    + apply IH in H as (pre & m' & -> & Hid & Hv).
      exists (SubMsg m :: pre), m'. auto.
    + apply negb_false_iff, N.eqb_eq in Ne.
      destruct (msg_from_bytes _ _ _) eqn:F.
      * injection H as <- <-. exists [], m. auto.
      * apply IH in H as (pre & m' & -> & Hid & Hv).
        exists (SubMsg m :: pre), m'. auto.
  - apply IH in H as (pre & m' & -> & Hid & Hv).
    exists (Lagged n :: pre), m'. auto.
Qed.

Lemma collect_dyn_fails {NamedType Value} (codec : @DynCodec NamedType Value) ty raws :
  (exists tm e, In tm raws /\ from_slice_dyn codec ty (TopicMsg.msg tm) = Err e) ->
  collect_dyn codec ty raws = Err ClientError.Encoding.
Proof.
  induction raws as [|tm0 raws IH]; cbn; intros (tm & e & Hin & He); [contradiction |].
  destruct Hin as [<- | Hin].
  - rewrite He. reflexivity.
  - destruct (from_slice_dyn codec ty (TopicMsg.msg tm0)); [| reflexivity].
    rewrite IH; [reflexivity | exists tm, e; auto].
Qed.

Lemma find_path_none {A} (path_of : A -> string) (l : list A) (path : string) :
  (forall t, In t l -> path_of t <> path) ->
  find (fun t => String.eqb (path_of t) path) l = None.
Proof.
  intros H. apply find_none_iff. intros t Ht. apply String.eqb_neq. exact (H t Ht).
Qed.

End ClientProofs.

Section ClientClaims.
Import Icd Client.
Local Open Scope N_scope.

(** C4: in both proxy operations, once the proxy request is sent, a reply
    [ProxyResponse::Ok] has its body decoded and returned (a decode failure
    is [Encoding] for the typed call, [Dynamic("Decode error: '..'")] for
    the JSON one); [WireErr] becomes [Remote("WireErr: <Debug of the wire
    error>")]; [OtherErr(e)] becomes [Remote("Other Server Err: '<e>'")]. *)
Theorem proxy_reply_variants :
  (forall NamedType (d : @Daemon NamedType) Req Resp (E : Endpoint Req Resp)
          serial seq_no body req,
    In (RqProxy req) (snd (proxy_endpoint d E serial seq_no body)) ->
    fst (proxy_endpoint d E serial seq_no body) =
      match proxy_reply d req with
      | Ok (ProxyResponse.Ok _ _ b) =>
          match from_bytes _ _ E b with Some v => Ok v | None => Err ClientError.Encoding end
      | Ok (ProxyResponse.WireErr _ _ w) =>
          Err (ClientError.Remote ("WireErr: " ++ WireError.debug w)%string)
      | Ok (ProxyResponse.OtherErr e) =>
          Err (ClientError.Remote ("Other Server Err: '" ++ e ++ "'")%string)
      | Err h => Err (from_host_err h)
      end) /\
  (forall NamedType Value (d : @Daemon NamedType) (codec : @DynCodec NamedType Value)
          serial path seq_no body req,
    In (RqProxy req) (snd (proxy_endpoint_json d codec serial path seq_no body)) ->
    exists rep schema,
      schemas_reply d serial = Ok (Some rep) /\
      In schema (SchemaReport.endpoints rep) /\ EndpointReport.path schema = path /\
      fst (proxy_endpoint_json d codec serial path seq_no body) =
        match proxy_reply d req with
        | Ok (ProxyResponse.Ok _ _ b) =>
            match from_slice_dyn codec (EndpointReport.resp_ty schema) b with
            | Ok v => Ok v
            | Err e => Err (ClientError.Dynamic ("Decode error: '" ++ e ++ "'")%string)
            end
        | Ok (ProxyResponse.WireErr _ _ w) =>
            Err (ClientError.Remote ("WireErr: " ++ WireError.debug w)%string)
        | Ok (ProxyResponse.OtherErr e) =>
            Err (ClientError.Remote ("Other Server Err: '" ++ e ++ "'")%string)
        | Err h => Err (from_host_err h)
        end).
Proof.
  split.
  - intros. apply proxy_endpoint_reply. assumption.
  - intros. apply proxy_endpoint_json_reply. assumption.
Qed.

(** The sample device answers a proxied call with a [FrameTooLong] wire
    error; both operations report it as [Remote]. *)
Lemma proxy_reply_variants_witness :
  fst (proxy_endpoint Samples.daemon Samples.echo 1 0 5%nat) =
    Err (ClientError.Remote "WireErr: FrameTooLong(FrameTooLong { len: 300, max: 256 })") /\
  fst (proxy_endpoint_json Samples.daemon Samples.codec 1 "echo" 0 5%nat) =
    Err (ClientError.Remote "WireErr: FrameTooLong(FrameTooLong { len: 300, max: 256 })").
Proof.
  pose (rq := {| ProxyRequest.serial := 1; ProxyRequest.path := "echo";
                 ProxyRequest.req_key := Samples.key_a; ProxyRequest.resp_key := Samples.key_b;
                 ProxyRequest.seq_no := 0; ProxyRequest.req_body := [x05] |}).
  split.
  - rewrite ((proj1 proxy_reply_variants) _ Samples.daemon _ _ Samples.echo 1 0 5%nat rq).
    + reflexivity.
    + cbn. right. left. reflexivity.
  - destruct ((proj2 proxy_reply_variants) _ _ Samples.daemon Samples.codec 1 "echo"%string
                0 5%nat rq) as (rep & schema & _ & _ & _ & ->).
    + cbn. right. left. reflexivity.
    + reflexivity.
Defined.


(** C5: [proxy_endpoint::<E>] sends a proxy request only for an endpoint
    of the device's schema report whose path equals [E::PATH] and whose
    request and response keys equal [E::REQ_KEY] and [E::RESP_KEY]; the
    request carries that path and those keys. When the device is unknown,
    or no endpoint of its report matches all three, the call fails with
    [Server("endpoint not found")] and sends no proxy request. *)
Theorem proxy_endpoint_selects {NamedType} (d : @Daemon NamedType) {Req Resp}
  (E : Endpoint Req Resp) serial seq_no body :
  (forall req, In (RqProxy req) (snd (proxy_endpoint d E serial seq_no body)) ->
     exists rep schema,
       schemas_reply d serial = Ok (Some rep) /\
       In schema (SchemaReport.endpoints rep) /\
       EndpointReport.path schema = PATH _ _ E /\
       EndpointReport.req_key schema = REQ_KEY _ _ E /\
       EndpointReport.resp_key schema = RESP_KEY _ _ E /\
       ProxyRequest.path req = PATH _ _ E /\
       ProxyRequest.req_key req = REQ_KEY _ _ E /\
       ProxyRequest.resp_key req = RESP_KEY _ _ E) /\
  ((schemas_reply d serial = Ok None \/
    exists rep, schemas_reply d serial = Ok (Some rep) /\
      forall schema, In schema (SchemaReport.endpoints rep) ->
        ~ (EndpointReport.path schema = PATH _ _ E /\
           EndpointReport.req_key schema = REQ_KEY _ _ E /\
           EndpointReport.resp_key schema = RESP_KEY _ _ E)) ->
   fst (proxy_endpoint d E serial seq_no body) = Err (ClientError.Server "endpoint not found") /\
   forall req, ~ In (RqProxy req) (snd (proxy_endpoint d E serial seq_no body))).
Proof.
  unfold proxy_endpoint. rewrite get_device_schemas_eq. split.
  - intros req H.
    destruct (schemas_reply d serial) as [[rep|]|h]; cbn in *; try (in_requests H; fail).
    destruct (find _ _) as [schema|] eqn:Fd; cbn in *; try (in_requests H; fail).
    apply find_some in Fd as [Hin Hp].
    apply andb_prop in Hp as [Hp Hresp]. apply andb_prop in Hp as [Hp Hreq].
    apply String.eqb_eq in Hp. apply key_eqb_true in Hreq, Hresp.
    exists rep, schema.
    destruct (to_stdvec _ _ E body) as [b|]; cbn in *; try (in_requests H; fail).
    destruct (proxy_reply d _) as [[k s bb|k s w|e]|h'];
      cbn in *; try (destruct (from_bytes _ _ E bb); cbn in *);
      in_requests H; injection H as <-; cbn; repeat split; assumption.
  - intros [Hs | (rep & Hs & Hno)]; rewrite Hs; cbn.
    + split; [reflexivity | intros req H; in_requests H].
    + replace (find _ _) with (@None (EndpointReport.t NamedType)).
      * cbn. split; [reflexivity | intros req H; in_requests H].
      * symmetry. apply find_none_iff. intros schema Hin.
        destruct (String.eqb _ _) eqn:Hp, (key_eqb _ (REQ_KEY _ _ E)) eqn:Hreq,
          (key_eqb _ (RESP_KEY _ _ E)) eqn:Hresp; try reflexivity.
        exfalso. apply (Hno schema Hin).
        apply String.eqb_eq in Hp. apply key_eqb_true in Hreq, Hresp. auto.
Qed.

(** The sample report lists [echo] with keys [key_a] / [key_b]: an endpoint
    with the right path but swapped keys is not found, and neither is any
    endpoint of the unknown device 2. *)
Lemma proxy_endpoint_selects_witness :
  fst (proxy_endpoint Samples.daemon
         {| PATH := "echo"; REQ_KEY := Samples.key_b; RESP_KEY := Samples.key_a;
            to_stdvec := to_stdvec _ _ Samples.echo;
            from_bytes := from_bytes _ _ Samples.echo |} 1 0 5%nat) =
    Err (ClientError.Server "endpoint not found") /\
  fst (proxy_endpoint Samples.daemon Samples.echo 2 0 5%nat) =
    Err (ClientError.Server "endpoint not found").
Proof.
  split.
  - apply (proj2 (proxy_endpoint_selects Samples.daemon _ 1 0 5%nat)).
    right. exists Samples.report. split; [reflexivity |].
    intros schema [<- | []] (_ & Hreq & _). discriminate Hreq.
  - apply (proj2 (proxy_endpoint_selects Samples.daemon _ 2 0 5%nat)).
    left. reflexivity.
Defined.


(** C6: a listener returned by [stream_topic_json] or [stream_topic]
    carries the id of the daemon's [Started] reply to the [StartStream]
    request sent; its [recv] yields only a fanout message carrying that id
    (and decoding), and a message carrying any other id is dropped: the
    call goes on exactly as if the message had not arrived. *)
Theorem stream_listener_filters :
  (forall NamedType Value (d : @Daemon NamedType) (codec : @DynCodec NamedType Value)
          serial path l,
     fst (stream_topic_json d serial path) = Ok l ->
     (exists req, In (RqStartStream req) (snd (stream_topic_json d serial path)) /\
                  start_reply d req = Ok (TopicStreamResult.Started (jl_stream_id l))) /\
     (forall evs v rest, json_recv codec l evs = RecvSome v rest ->
        exists pre m, evs = pre ++ SubMsg m :: rest /\
                      TopicStreamMsg.stream_id m = jl_stream_id l) /\
     (forall m evs, TopicStreamMsg.stream_id m <> jl_stream_id l ->
        json_recv codec l (SubMsg m :: evs) = json_recv codec l evs)) /\
  (forall NamedType (d : @Daemon NamedType) Msg (T : Topic Msg) serial l,
     fst (stream_topic d T serial) = Ok l ->
     (exists req, In (RqStartStream req) (snd (stream_topic d T serial)) /\
                  start_reply d req = Ok (TopicStreamResult.Started (sl_stream_id l))) /\
     (forall evs v rest, recv T l evs = RecvSome v rest ->
        exists pre m, evs = pre ++ SubMsg m :: rest /\
                      TopicStreamMsg.stream_id m = sl_stream_id l) /\
     (forall m evs, TopicStreamMsg.stream_id m <> sl_stream_id l ->
        recv T l (SubMsg m :: evs) = recv T l evs)).
Proof.
  split.
  - intros NamedType Value d codec serial path l H.
    split; [exact (stream_topic_json_started d serial path l H) |].
    split.
    + intros evs v rest Hr.
      destruct (json_recv_yields codec l evs v rest Hr) as (pre & m & Hevs & Hid & _).
      exists pre, m. auto.
    + intros m evs Hne. cbn. apply N.eqb_neq in Hne. rewrite Hne. reflexivity.
  - intros NamedType d Msg T serial l H.
    split; [exact (stream_topic_started d T serial l H) |].
    split.
    + intros evs v rest Hr.
      destruct (recv_yields T l evs v rest Hr) as (pre & m & Hevs & Hid & _).
      exists pre, m. auto.
    + intros m evs Hne. cbn. apply N.eqb_neq in Hne. rewrite Hne. reflexivity.
Qed.

(** The sample daemon starts stream 7: of a message of stream 8 and one
    of stream 7, both listeners skip the first and yield the second. *)
Lemma stream_listener_filters_witness :
  json_recv Samples.codec {| jl_stream_id := 7; jl_schema := Samples.temp_topic |}
    [SubMsg {| TopicStreamMsg.stream_id := 8; TopicStreamMsg.msg := [x03] |};
     SubMsg {| TopicStreamMsg.stream_id := 7; TopicStreamMsg.msg := [x04] |}] =
    RecvSome 4%nat [] /\
  recv Samples.temp {| sl_stream_id := 7 |}
    [SubMsg {| TopicStreamMsg.stream_id := 8; TopicStreamMsg.msg := [x03] |};
     SubMsg {| TopicStreamMsg.stream_id := 7; TopicStreamMsg.msg := [x04] |}] =
    RecvSome 4%nat [].
Proof.
  split.
  - rewrite (proj2 (proj2 ((proj1 stream_listener_filters) _ _ Samples.daemon Samples.codec
                             1 "sensor/temp"%string _ eq_refl))).
    + reflexivity.
    + cbn. discriminate.
  - rewrite (proj2 (proj2 ((proj2 stream_listener_filters) _ Samples.daemon _ Samples.temp
                             1 _ eq_refl))).
    + reflexivity.
    + cbn. discriminate.
Defined.


(** C7 (code bug): when the schema-report fetch fails (the daemon cannot
    be reached: [HostErr::Closed] and the like), [proxy_endpoint_json],
    [publish_topic_json], [stream_topic_json] and [stream_topic] match it
    away with [let Ok(Some(..)) = .. else] and report
    [Server("endpoint not found")] or [Server("topic not found")], while
    [get_device_schemas] and [proxy_endpoint] pass the converted error on. *)
Theorem schema_fetch_failure_reported_as_server {NamedType Value}
  (d : @Daemon NamedType) (codec : @DynCodec NamedType Value)
  serial path seq_no body (h : HostErr.t)
  (Hs : schemas_reply d serial = Err h) :
  fst (proxy_endpoint_json d codec serial path seq_no body) =
    Err (ClientError.Server "endpoint not found") /\
  fst (publish_topic_json d codec serial path seq_no body) =
    Err (ClientError.Server "topic not found") /\
  fst (stream_topic_json d serial path) = Err (ClientError.Server "topic not found") /\
  (forall Msg (T : Topic Msg),
     fst (stream_topic d T serial) = Err (ClientError.Server "topic not found")) /\
  fst (get_device_schemas d serial) = Err (from_host_err h) /\
  (forall Req Resp (E : Endpoint Req Resp) (b : Req),
     fst (proxy_endpoint d E serial seq_no b) = Err (from_host_err h)).
Proof.
  unfold proxy_endpoint_json, publish_topic_json, stream_topic_json, stream_topic,
    proxy_endpoint, attempt.
  rewrite !get_device_schemas_eq, Hs. cbn. repeat split.
Qed.

(** With the connection closed, [proxy_endpoint_json] says the endpoint
    does not exist, where [proxy_endpoint] says [ConnectionClosed]. *)
Lemma schema_fetch_failure_reported_as_server_witness :
  fst (proxy_endpoint_json Samples.closed_daemon Samples.codec 1 "echo" 0 5%nat) =
    Err (ClientError.Server "endpoint not found") /\
  fst (proxy_endpoint Samples.closed_daemon Samples.echo 1 0 5%nat) =
    Err ClientError.ConnectionClosed.
Proof.
  destruct (schema_fetch_failure_reported_as_server Samples.closed_daemon Samples.codec
              1 "echo"%string 0 5%nat HostErr.Closed eq_refl)
    as (H1 & _ & _ & _ & _ & H6).
  split; [exact H1 | exact (H6 _ _ Samples.echo 5%nat)].
Defined.

(** C8 (code bug): when a stored message of the topic does not decode
    against the topic's schema, [get_device_topics_out_by_path_json]
    fails with [Encoding], not [Dynamic]. *)
Theorem topics_json_decode_failure_is_encoding {NamedType Value}
  (d : @Daemon NamedType) (codec : @DynCodec NamedType Value)
  serial path count rep schema raws
  (Hs : schemas_reply d serial = Ok (Some rep))
  (Hf : find (fun t => String.eqb (TopicReport.path t) path)
             (SchemaReport.topics_out rep) = Some schema)
  (Ht : topics_reply d {| TopicRequest.serial := serial; TopicRequest.path := path;
                          TopicRequest.key := TopicReport.key schema;
                          TopicRequest.count := count |} = Ok (Some raws))
  (Hbad : exists tm e, In tm raws /\
            from_slice_dyn codec (TopicReport.ty schema) (TopicMsg.msg tm) = Err e) :
  fst (get_device_topics_out_by_path_json d codec serial path count) =
    Err ClientError.Encoding.
Proof.
  unfold get_device_topics_out_by_path_json.
  rewrite get_device_schemas_eq, Hs. cbn. rewrite Hf. cbn. rewrite Ht. cbn.
  rewrite (collect_dyn_fails codec _ raws Hbad). reflexivity.
Qed.

(** The stored message [0x00] of the sample device does not decode. *)
Lemma topics_json_decode_failure_is_encoding_witness :
  fst (get_device_topics_out_by_path_json Samples.daemon Samples.codec 1 "sensor/temp" 3) =
    Err ClientError.Encoding.
Proof.
  apply (topics_json_decode_failure_is_encoding Samples.daemon Samples.codec
           1 "sensor/temp"%string 3 Samples.report Samples.temp_topic
           [{| TopicMsg.uuidv7 := 5; TopicMsg.msg := [x00] |}]).
  - reflexivity.
  - reflexivity.
  - reflexivity.
  - eexists. eexists. split; [left; reflexivity | reflexivity].
Defined.

(** C10: for a known device and a path naming none of its topics-out,
    both [get_device_topics_out_by_path_raw] and
    [get_device_topics_out_by_path_json] return [Ok(None)] after the
    schema fetch alone, exactly as for an unknown device;
    [stream_topic_json] on that path, and [publish_topic_json] on a path
    naming none of its topics-in, fail with [Server("topic not found")]. *)
Theorem topics_out_missing_path_is_none {NamedType Value}
  (d : @Daemon NamedType) (codec : @DynCodec NamedType Value)
  serial path count seq_no body rep
  (Hs : schemas_reply d serial = Ok (Some rep))
  (Hout : forall t, In t (SchemaReport.topics_out rep) -> TopicReport.path t <> path) :
  get_device_topics_out_by_path_raw d serial path count = (Ok None, [RqGetSchemas serial]) /\
  get_device_topics_out_by_path_json d codec serial path count =
    (Ok None, [RqGetSchemas serial]) /\
  (forall d' : @Daemon NamedType, schemas_reply d' serial = Ok None ->
     get_device_topics_out_by_path_raw d' serial path count =
       (Ok None, [RqGetSchemas serial]) /\
     get_device_topics_out_by_path_json d' codec serial path count =
       (Ok None, [RqGetSchemas serial])) /\
  fst (stream_topic_json d serial path) = Err (ClientError.Server "topic not found") /\
  ((forall t, In t (SchemaReport.topics_in rep) -> TopicReport.path t <> path) ->
   fst (publish_topic_json d codec serial path seq_no body) =
     Err (ClientError.Server "topic not found")).
Proof.
  unfold get_device_topics_out_by_path_raw, get_device_topics_out_by_path_json,
    stream_topic_json, publish_topic_json, attempt.
  rewrite !get_device_schemas_eq, Hs. cbn.
  rewrite (find_path_none TopicReport.path _ path Hout). cbn.
  split; [reflexivity |]. split; [reflexivity |]. split.
  - intros d' Hs'. rewrite !get_device_schemas_eq, Hs'. split; reflexivity.
  - split; [reflexivity |].
    intros Hin. rewrite (find_path_none TopicReport.path _ path Hin). reflexivity.
Qed.

(** The sample device has no topic-out [led/set] (it is a topic-in) and
    no topic at all named [nope]. *)
Lemma topics_out_missing_path_is_none_witness :
  get_device_topics_out_by_path_json Samples.daemon Samples.codec 1 "led/set" 3 =
    (Ok None, [RqGetSchemas 1]) /\
  fst (publish_topic_json Samples.daemon Samples.codec 1 "nope" 0 5%nat) =
    Err (ClientError.Server "topic not found").
Proof.
  split.
  - refine (proj1 (proj2 (topics_out_missing_path_is_none Samples.daemon Samples.codec
             1 "led/set"%string 3 0 5%nat Samples.report eq_refl _))).
    intros t [<- | []]. cbn. discriminate.
  - refine (proj2 (proj2 (proj2 (proj2 (topics_out_missing_path_is_none Samples.daemon
             Samples.codec 1 "nope"%string 3 0 5%nat Samples.report eq_refl _)))) _).
    + intros t [<- | []]. cbn. discriminate.
    + intros t [<- | []]. cbn. discriminate.
Defined.

End ClientClaims.

(** ** REST keys *)

Section RestProofs.
Import Rest.
Local Open Scope N_scope.

Lemma str_app_assoc (a b c : string) : ((a ++ b) ++ c)%string = (a ++ (b ++ c))%string.
Proof. induction a as [|x a IH]; simpl; [reflexivity | now rewrite IH]. Qed.

Lemma str_app_length (a b : string) :
  String.length (a ++ b) = (String.length a + String.length b)%nat.
Proof. induction a as [|x a IH]; simpl; [reflexivity | now rewrite IH]. Qed.

Lemma parse_digits_app (s1 s2 : string) (a : N) :
  parse_digits (s1 ++ s2) a =
  match parse_digits s1 a with Some a' => parse_digits s2 a' | None => None end.
Proof.
  revert a. induction s1 as [|c s1 IH]; intro a; simpl; [reflexivity|].
  destruct (to_digit16 c); [|reflexivity].
  destruct (u64_max <? a * 16); [reflexivity|].
  destruct (u64_max <? a * 16 + n); [reflexivity|]. apply IH.
Qed.

Lemma div16_bound (X v m : N) : X * 16 + v <= m -> X + v / 16 <= m.
Proof.
  intro H. pose proof (N.Div0.mul_div_le v 16).
  generalize dependent (v / 16). intros. lia.
Qed.

Lemma div16_split (X v : N) : X * 16 + v = (X + v / 16) * 16 + v mod 16.
Proof.
  pose proof (N.div_mod v 16 ltac:(lia)).
  generalize dependent (v / 16). generalize dependent (v mod 16). intros. lia.
Qed.

Lemma to_digit16_hex_char (dg : N) : dg < 16 -> to_digit16 (hex_char dg) = Some dg.
Proof.
  intro H. rewrite <- (N2Nat.id dg).
  assert (Hn : (N.to_nat dg < 16)%nat) by lia.
  generalize (N.to_nat dg) Hn. clear H Hn. intros n Hn.
  do 16 (destruct n as [|n]; [reflexivity|]). lia.
Qed.

Lemma parse_digit_step (c : ascii) (dg a : N) :
  to_digit16 c = Some dg -> a * 16 + dg <= u64_max ->
  parse_digits (String c EmptyString) a = Some (a * 16 + dg).
Proof.
  intros Hc Hb. simpl. rewrite Hc.
  replace (u64_max <? a * 16) with false by (symmetry; apply N.ltb_ge; lia).
  replace (u64_max <? a * 16 + dg) with false by (symmetry; apply N.ltb_ge; lia).
  reflexivity.
Qed.

(** The digits written by [hex_digits] read back to the value. *)
Lemma hex_digits_parse (f : nat) : forall (v : N) (acc : string),
  v < 16 ^ N.of_nat f ->
  exists h k, hex_digits f v acc = (h ++ acc)%string /\ (String.length h <= f)%nat /\
    forall a, a * 16 ^ k + v <= u64_max -> parse_digits h a = Some (a * 16 ^ k + v).
Proof.
  induction f as [|f IH]; intros v acc Hv.
  - exists EmptyString, 0. simpl in Hv |- *. split; [reflexivity|]. split; [lia|].
    intros a _. f_equal. lia.
  - pose proof (N.div_mod v 16 ltac:(lia)) as Dv.
    pose proof (N.mod_lt v 16 ltac:(lia)) as Mv.
    simpl. destruct (v / 16 =? 0) eqn:E.
    + apply N.eqb_eq in E.
      exists (String (hex_char (v mod 16)) EmptyString), 1.
      split; [reflexivity|]. split; [simpl; lia|].
      intros a Ha. rewrite (parse_digit_step _ (v mod 16)).
      * f_equal. lia.
      * now apply to_digit16_hex_char.
      * lia.
    + apply N.eqb_neq in E.
      assert (Hq : v / 16 < 16 ^ N.of_nat f).
      { apply N.Div0.div_lt_upper_bound.
        rewrite Nat2N.inj_succ, N.pow_succ_r' in Hv. lia. }
      destruct (IH (v / 16) (String (hex_char (v mod 16)) acc) Hq)
        as (h & k & Eh & Lh & Ph).
      exists (h ++ String (hex_char (v mod 16)) EmptyString)%string, (N.succ k).
      split; [rewrite Eh, str_app_assoc; reflexivity|].
      split; [rewrite str_app_length; simpl; lia|].
      intros a Ha. rewrite N.pow_succ_r' in Ha |- *.
      replace (a * (16 * 16 ^ k)) with (a * 16 ^ k * 16) in Ha |- * by ring.
      rewrite parse_digits_app, Ph by (apply div16_bound with (1 := Ha)).
      rewrite (parse_digit_step _ (v mod 16)).
      * f_equal. symmetry. apply div16_split.
      * now apply to_digit16_hex_char.
      * rewrite <- div16_split. exact Ha.
Qed.

Lemma zeros_parse (n : nat) : parse_digits (zeros n) 0 = Some 0.
Proof.
  induction n as [|n IH]; [reflexivity|]. simpl zeros.
  change (parse_digits (String "0" (zeros n)) 0) with
    (if u64_max <? 0 then None else if u64_max <? 0 then None else parse_digits (zeros n) 0).
  exact IH.
Qed.

Lemma zeros_length (n : nat) : String.length (zeros n) = n.
Proof. induction n; simpl; congruence. Qed.

Lemma from_le_bytes_bound (k : list byte) : from_le_bytes k < 256 ^ N.of_nat (length k).
Proof.
  induction k as [|b k IH]; [simpl; lia|].
  pose proof (Byte.to_N_bounded b).
  change (length (b :: k)) with (S (length k)). cbn [from_le_bytes].
  rewrite Nat2N.inj_succ, N.pow_succ_r'.
  generalize dependent (256 ^ N.of_nat (length k)). intros. lia.
Qed.

Lemma to_le_bytes_from (k : list byte) : to_le_bytes_n (length k) (from_le_bytes k) = k.
Proof.
  induction k as [|b k IH]; [reflexivity|]. cbn [length to_le_bytes_n].
  pose proof (Byte.to_N_bounded b).
  assert (Em : (Byte.to_N b + 256 * from_le_bytes k) mod 256 = Byte.to_N b).
  { rewrite N.mul_comm, N.Div0.mod_add. apply N.mod_small. lia. }
  assert (Ed : (Byte.to_N b + 256 * from_le_bytes k) / 256 = from_le_bytes k).
  { rewrite N.mul_comm, N.div_add by lia. rewrite N.div_small by lia. lia. }
  cbn [from_le_bytes]. rewrite Em, Ed, Byte.of_to_N, IH. reflexivity.
Qed.

Lemma from_str_radix16_digits (s : string) (v : N) :
  parse_digits s 0 = Some v -> s <> EmptyString -> from_str_radix16 s = Some v.
Proof.
  intros Hp Hs. destruct s as [|c rest]; [congruence|].
  assert (Hc : to_digit16 c <> None) by (simpl in Hp; destruct (to_digit16 c); congruence).
  assert (Hplus : Ascii.eqb c "+" = false).
  { destruct (Ascii.eqb_spec c "+"); [subst; now cbv in Hc | reflexivity]. }
  assert (Hminus : Ascii.eqb c "-" = false).
  { destruct (Ascii.eqb_spec c "-"); [subst; now cbv in Hc | reflexivity]. }
  unfold from_str_radix16. destruct rest; rewrite Hplus; [rewrite Hminus|]; exact Hp.
Qed.

Lemma str_app_empty_r (a : string) : (a ++ EmptyString)%string = a.
Proof. induction a as [|x a IH]; simpl; [reflexivity | now rewrite IH]. Qed.

(** X4 ([From<postcard_rpc::Key> for Key], [TryFrom<Key> for
    postcard_rpc::Key]): the REST form of an 8-byte key is exactly 16
    upper-case hex digits, and converting it back gives the same key. *)
Theorem key_rest_roundtrip (k : Icd.Key) :
  length k = 8%nat ->
  String.length (key_to_rest k) = 16%nat /\ key_from_rest (key_to_rest k) = Ok k.
Proof.
  intro Hk. unfold key_to_rest, fmt_016X.
  pose proof (from_le_bytes_bound k) as Hb. rewrite Hk in Hb.
  pose proof (to_le_bytes_from k) as Hr. rewrite Hk in Hr.
  set (v := from_le_bytes k) in *.
  assert (Hv : v < 16 ^ N.of_nat 16) by exact Hb.
  change (16 ^ N.of_nat 16) with 18446744073709551616 in Hv.
  destruct (hex_digits_parse 16 v EmptyString ltac:(exact Hb)) as (h & kk & Eh & Lh & Ph).
  rewrite Eh, str_app_empty_r.
  assert (Hl : String.length (zeros (16 - String.length h) ++ h) = 16%nat).
  { rewrite str_app_length, zeros_length. lia. }
  split; [exact Hl|].
  unfold key_from_rest. rewrite (from_str_radix16_digits _ v).
  - unfold to_le_bytes. rewrite Hr. reflexivity.
  - rewrite parse_digits_app, zeros_parse, Ph; rewrite N.mul_0_l; [reflexivity|].
    unfold u64_max. lia.
  - intro E. rewrite E in Hl. discriminate.
Qed.

Lemma key_rest_roundtrip_witness :
  String.length (key_to_rest Samples.key_a) = 16%nat /\
  key_from_rest (key_to_rest Samples.key_a) = Ok Samples.key_a.
Proof. apply key_rest_roundtrip. reflexivity. Defined.

End RestProofs.

(** ** Transport: frame sizes and what the receiver drops *)

Section TransportExtras.
Import Transport.

Lemma encode_go_length_lower data : forall blk,
  length blk + length data + 1 <= length (Cobs.encode_go blk data).
Proof.
  induction data as [|x data IH]; intro blk; cbn [Cobs.encode_go length]; [lia|].
  destruct (Byte.eqb x x00).
  - cbn [length]. rewrite length_app. specialize (IH []). cbn [length] in IH. lia.
  - destruct (Nat.eqb (length blk + 1) 254).
    + cbn [length]. rewrite !length_app. specialize (IH []). cbn [length] in IH.
      cbn [length]. lia.
    + specialize (IH (blk ++ [x])). rewrite length_app in IH. cbn [length] in IH. lia.
Qed.

Lemma position_zero_lt buf pos : position_zero buf = Some pos -> pos < length buf.
Proof.
  revert pos. induction buf as [|b buf IH]; intros pos H; cbn [position_zero] in H;
    [discriminate|].
  destruct (Byte.eqb b x00); [injection H as <-; cbn [length]; lia|].
  destruct (position_zero buf) as [p|] eqn:E; [|discriminate].
  injection H as <-. specialize (IH p eq_refl). cbn [length]. lia.
Qed.

(** Any number of rounds beyond the length of the accumulator gives the
    same outcome. *)
Lemma drain_rounds_enough f1 : forall f2 buf,
  S (length buf) <= f1 -> S (length buf) <= f2 -> drain_rounds f1 buf = drain_rounds f2 buf.
Proof.
  induction f1 as [|f1 IH]; intros f2 buf H1 H2; [lia|].
  destruct f2 as [|f2]; [lia|]. cbn [drain_rounds].
  destruct (rx_cap <? N.of_nat (length buf))%N; [reflexivity|].
  destruct (position_zero buf) as [pos|] eqn:P; [|reflexivity].
  apply position_zero_lt in P.
  destruct (Cobs.decode_vec (firstn (S pos) buf)); [reflexivity|].
  apply IH; rewrite length_skipn; lia.
Qed.

Lemma rx_drain_skip junk rest :
  ~ In x00 junk -> Cobs.decode_vec (junk ++ [x00]) = None ->
  (N.of_nat (length (junk ++ x00 :: rest)) <= rx_cap)%N ->
  rx_drain (junk ++ x00 :: rest) = rx_drain rest.
Proof.
  intros Hnz Hdec Hc. unfold rx_drain at 1. cbn [drain_rounds].
  replace (rx_cap <? _)%N with false by (symmetry; apply N.ltb_ge; exact Hc).
  rewrite position_zero_frame by exact Hnz.
  cbv beta iota zeta. rewrite firstn_frame, skipn_frame, Hdec.
  unfold rx_drain. apply drain_rounds_enough; try rewrite length_app; cbn [length]; lia.
Qed.

(** X1 ([TcpCommsTx::send_inner]): an empty payload goes on the wire as
    the terminator alone, a single 0x00 (the crate's encoder writes nothing
    for it); a payload of [n > 0] bytes goes on the wire as at least
    [n + 2] and at most [n + 2 + n / 254] bytes: the COBS code bytes (one,
    plus one per full run of 254 non-zero bytes) and the 0x00 terminator. *)
Theorem send_inner_length (p : list byte) :
  (p = [] -> send_inner p = [x00]) /\
  (p <> [] ->
   length p + 2 <= length (send_inner p) <= length p + 2 + length p / 254).
Proof.
  split; [intros ->; reflexivity | intro Hne].
  unfold send_inner. rewrite length_app, encode_vec_eq. cbn [length].
  destruct (max_enc_split (length p)) as (q & r & Hn & Hr & HM).
  assert (Hpos : 0 < length p) by (destruct p; [congruence | cbn; lia]).
  assert (HM1 : length p + 1 <= Cobs.max_encoding_length (length p)).
  { rewrite HM. destruct q; [destruct r; [lia|] |]; cbn; lia. }
  assert (HMu : Cobs.max_encoding_length (length p) <= length p + 1 + length p / 254).
  { unfold Cobs.max_encoding_length. destruct (0 <? length p mod 254); lia. }
  pose proof (encode_go_length_lower p []) as L. cbn [length] in L.
  pose proof (length_firstn (Cobs.max_encoding_length (length p)) (Cobs.encode_go [] p)) as F.
  destruct (encode_go_cut (length p) p (le_n _) Hne) as [E | [_ E]].
  - rewrite E in F |- *. lia.
  - assert (Hlen := f_equal (@length byte) E). rewrite length_app in Hlen.
    cbn [length] in Hlen. lia.
Qed.

Lemma send_inner_length_witness :
  ([] : list byte) = [] /\ send_inner [] = [x00] /\
  [x11; x00] <> [] /\
  length [x11; x00] + 2 <= length (send_inner [x11; x00])
  <= length [x11; x00] + 2 + length [x11; x00] / 254.
Proof.
  split; [reflexivity|].
  split; [exact (proj1 (send_inner_length []) eq_refl)|].
  assert (H : [x11; x00] <> []) by discriminate.
  split; [exact H | exact (proj2 (send_inner_length [x11; x00]) H)].
Defined.

(** X2 ([TcpCommsRx::receive_inner]): a chunk up to the first 0x00 that
    does not COBS-decode is dropped silently, and the call goes on with
    the bytes after it, as if the chunk had never been received. A bare
    0x00 (an empty frame, or a doubled terminator) is such a chunk. *)
Theorem receive_inner_skips_undecodable (junk rest : list byte) (reads : list (list byte)) :
  ~ In x00 junk -> Cobs.decode_vec (junk ++ [x00]) = None ->
  (N.of_nat (length (junk ++ x00 :: rest)) <= rx_cap)%N ->
  receive_inner (junk ++ x00 :: rest) reads = receive_inner rest reads.
Proof.
  intros Hnz Hdec Hc. rewrite !receive_inner_eq, rx_drain_skip by assumption.
  reflexivity.
Qed.

Lemma receive_inner_skips_undecodable_witness :
  receive_inner (x00 :: x05 :: x01 :: x00 :: send_inner [x07]) [] =
  receive_inner (send_inner [x07]) [].
Proof.
  transitivity (receive_inner (x05 :: x01 :: x00 :: send_inner [x07]) []).
  - apply (receive_inner_skips_undecodable [] (x05 :: x01 :: x00 :: send_inner [x07]) []).
    + intro H. inversion H.
    + vm_compute. reflexivity.
    + vm_compute. discriminate.
  - apply (receive_inner_skips_undecodable [x05; x01] (send_inner [x07]) []).
    + simpl. intros [H | [H | []]]; discriminate.
    + vm_compute. reflexivity.
    + vm_compute. discriminate.
Defined.

(** X3 ([TcpCommsRx::receive_inner]): when the stream ends before any
    0x00 arrives, the call fails with [ConnError] after consuming every
    read, and the bytes read so far stay in the accumulator. *)
Theorem receive_inner_unterminated (buf : list byte) (reads : list (list byte)) :
  ~ In x00 (buf ++ concat reads) -> Forall (fun c => c <> []) reads ->
  (N.of_nat (length (buf ++ concat reads)) <= rx_cap)%N ->
  receive_inner buf reads = (Err ConnError, buf ++ concat reads, []).
Proof.
  revert buf. induction reads as [|c reads IH]; intros buf Hnz Hne Hc;
    cbn [concat] in *; rewrite ?app_nil_r in *.
  - rewrite receive_inner_eq, rx_drain_need by assumption. reflexivity.
  - apply Forall_cons_iff in Hne as [Hc0 Hne].
    rewrite receive_inner_read with (buf' := buf).
    + rewrite app_assoc in Hnz, Hc |- *. apply IH; assumption.
    + apply rx_drain_need.
      * intro H. apply Hnz, in_app_iff. left. exact H.
      * rewrite length_app in Hc. lia.
    + exact Hc0.
Qed.

Lemma receive_inner_unterminated_witness :
  receive_inner [x05] [[x01; x02]; [x03]] = (Err ConnError, [x05; x01; x02; x03], []).
Proof.
  apply (receive_inner_unterminated [x05] [[x01; x02]; [x03]]).
  - simpl. intros [H | [H | [H | [H | []]]]]; discriminate.
  - repeat constructor; discriminate.
  - vm_compute. discriminate.
Defined.

(** X15 ([TcpCommsTx::send_inner], [cobs::encode_vec]): the crate's
    encoder never runs out of room in the [max_encoding_length] buffer it
    allocates, so the [unwrap] on [encode] never panics, and the encoding
    is no longer than that bound. *)
Theorem encode_fits (source : list byte) :
  (exists r, Cobs.encode source (repeat x00 (Cobs.max_encoding_length (length source)))
             = Some r) /\
  length (Cobs.encode_vec source) <= Cobs.max_encoding_length (length source).
Proof.
  split.
  - rewrite encode_run. eexists. reflexivity.
  - rewrite encode_vec_eq, length_firstn. apply Nat.le_min_l.
Qed.

(** X16 ([TcpCommsTx::send_inner], [TcpCommsRx::receive_inner]): an empty
    payload goes on the wire as a lone 0x00, which the receiver drops
    without yielding anything: it goes on with the bytes after it. *)
Theorem send_inner_empty_dropped (rest : list byte) (reads : list (list byte)) :
  (N.of_nat (S (length rest)) <= rx_cap)%N ->
  receive_inner (send_inner [] ++ rest) reads = receive_inner rest reads.
Proof.
  intro Hc. change (send_inner [] ++ rest) with ([] ++ x00 :: rest).
  rewrite !receive_inner_eq, rx_drain_skip.
  - reflexivity.
  - intros [].
  - reflexivity.
  - exact Hc.
Qed.

Lemma send_inner_empty_dropped_witness :
  (N.of_nat (S (length (send_inner [x07]))) <= rx_cap)%N /\
  receive_inner (send_inner [] ++ send_inner [x07]) [] = receive_inner (send_inner [x07]) [].
Proof.
  assert (H : (N.of_nat (S (length (send_inner [x07]))) <= rx_cap)%N)
    by (vm_compute; discriminate).
  split; [exact H | exact (send_inner_empty_dropped (send_inner [x07]) [] H)].
Defined.

End TransportExtras.

(** ** Client operations: requests sent and results *)

Section ClientExtras.
Import Icd Client.
Local Open Scope N_scope.

(** X5 ([proxy_endpoint], [proxy_endpoint_json]): a proxy request is
    sent only after the device's schema report was fetched, as the second
    and last request of the call. It carries the caller's serial and
    sequence number, and the request body encoded by the endpoint's codec
    (for the JSON call: against the request type of the first endpoint
    of the report whose path is the given one, whose path and keys it
    carries). *)
Theorem proxy_request_contents :
  (forall NamedType (d : @Daemon NamedType) Req Resp (E : Endpoint Req Resp)
          serial seq_no body req,
     In (RqProxy req) (snd (proxy_endpoint d E serial seq_no body)) ->
     snd (proxy_endpoint d E serial seq_no body) = [RqGetSchemas serial; RqProxy req] /\
     ProxyRequest.serial req = serial /\ ProxyRequest.seq_no req = seq_no /\
     to_stdvec _ _ E body = Some (ProxyRequest.req_body req)) /\
  (forall NamedType Value (d : @Daemon NamedType) (codec : @DynCodec NamedType Value)
          serial path seq_no body req,
     In (RqProxy req) (snd (proxy_endpoint_json d codec serial path seq_no body)) ->
     snd (proxy_endpoint_json d codec serial path seq_no body) =
       [RqGetSchemas serial; RqProxy req] /\
     exists rep schema,
       schemas_reply d serial = Ok (Some rep) /\
       find (fun e => String.eqb (EndpointReport.path e) path)
            (SchemaReport.endpoints rep) = Some schema /\
       req = {| ProxyRequest.serial := serial;
                ProxyRequest.path := EndpointReport.path schema;
                ProxyRequest.req_key := EndpointReport.req_key schema;
                ProxyRequest.resp_key := EndpointReport.resp_key schema;
                ProxyRequest.seq_no := seq_no;
                ProxyRequest.req_body := ProxyRequest.req_body req |} /\
       to_stdvec_dyn codec (EndpointReport.req_ty schema) body
         = Ok (ProxyRequest.req_body req)).
Proof.
  split.
  - intros NamedType d Req Resp E serial seq_no body req H.
    unfold proxy_endpoint in *. rewrite get_device_schemas_eq in *.
    destruct (schemas_reply d serial) as [[rep|]|h]; cbn in *; try (in_requests H; fail).
    destruct (find _ _) as [schema|]; cbn in *; try (in_requests H; fail).
    destruct (to_stdvec _ _ E body) as [b|] eqn:Enc; cbn in *; try (in_requests H; fail).
    destruct (proxy_reply d _) as [[k s bb|k s w|e]|h'] eqn:P; cbn in *;
      try (destruct (from_bytes _ _ E bb) eqn:F; cbn in *);
      in_requests H; injection H as <-; repeat split; reflexivity.
  - intros NamedType Value d codec serial path seq_no body req H.
    unfold proxy_endpoint_json, attempt in *. rewrite get_device_schemas_eq in *.
    destruct (schemas_reply d serial) as [[rep|]|h] eqn:Hs; cbn in *;
      try (in_requests H; fail).
    destruct (find _ _) as [schema|] eqn:Fd; cbn in *; try (in_requests H; fail).
    destruct (to_stdvec_dyn codec _ body) as [b|] eqn:Enc; cbn in *;
      try (in_requests H; fail).
    destruct (proxy_reply d _) as [[k s bb|k s w|e]|h'] eqn:P; cbn in *;
      try (destruct (from_slice_dyn codec _ bb) eqn:F; cbn in *);
      in_requests H; injection H as <-;
      (split; [reflexivity | exists rep, schema; repeat split; assumption]).
Qed.

(** X6 ([proxy_endpoint], [proxy_endpoint_json]): when the endpoint is
    found but the request body does not encode, the typed call fails with
    [Encoding] and the JSON call with [Dynamic("provided JSON does not
    match the expected schema for this endpoint")]; only the schema
    request has been sent. *)
Theorem proxy_encode_failure :
  (forall NamedType (d : @Daemon NamedType) Req Resp (E : Endpoint Req Resp)
          serial seq_no body rep schema,
     schemas_reply d serial = Ok (Some rep) ->
     find (fun e =>
          String.eqb (EndpointReport.path e) (PATH _ _ E)
          && key_eqb (EndpointReport.req_key e) (REQ_KEY _ _ E)
          && key_eqb (EndpointReport.resp_key e) (RESP_KEY _ _ E))
       (SchemaReport.endpoints rep) = Some schema ->
     to_stdvec _ _ E body = None ->
     proxy_endpoint d E serial seq_no body = (Err ClientError.Encoding, [RqGetSchemas serial])) /\
  (forall NamedType Value (d : @Daemon NamedType) (codec : @DynCodec NamedType Value)
          serial path seq_no body rep schema e,
     schemas_reply d serial = Ok (Some rep) ->
     find (fun e => String.eqb (EndpointReport.path e) path)
          (SchemaReport.endpoints rep) = Some schema ->
     to_stdvec_dyn codec (EndpointReport.req_ty schema) body = Err e ->
     proxy_endpoint_json d codec serial path seq_no body =
       (Err (ClientError.Dynamic
               "provided JSON does not match the expected schema for this endpoint"),
        [RqGetSchemas serial])).
Proof.
  split.
  - intros NamedType d Req Resp E serial seq_no body rep schema Hs Fd Enc.
    unfold proxy_endpoint. rewrite get_device_schemas_eq, Hs. cbn.
    rewrite Fd, Enc. reflexivity.
  - intros NamedType Value d codec serial path seq_no body rep schema e Hs Fd Enc.
    unfold proxy_endpoint_json, attempt. rewrite get_device_schemas_eq, Hs. cbn.
    rewrite Fd, Enc. reflexivity.
Qed.

(** X7 ([publish_topic_json]): a publish request is sent only as the
    second and last request, for the first topic-in of the device's
    report whose path is the given one: it carries that topic's path and
    key, the caller's serial and sequence number, and the body encoded
    against the topic's type. [Sent] then gives [Ok(())], [OtherErr(e)]
    gives [Server(e)], and a transport error is converted as by [?].
    When no publish request is sent, the call fails with [Server("topic
    not found")] or [Dynamic("provided JSON does not match the schema for
    this topic")], whatever the schema fetch returned. *)
Theorem publish_topic_json_outcome {NamedType Value} (d : @Daemon NamedType)
  (codec : @DynCodec NamedType Value) serial path seq_no body :
  (forall req, In (RqPublish req) (snd (publish_topic_json d codec serial path seq_no body)) ->
     snd (publish_topic_json d codec serial path seq_no body) =
       [RqGetSchemas serial; RqPublish req] /\
     exists rep schema b,
       schemas_reply d serial = Ok (Some rep) /\
       find (fun t => String.eqb (TopicReport.path t) path)
            (SchemaReport.topics_in rep) = Some schema /\
       to_stdvec_dyn codec (TopicReport.ty schema) body = Ok b /\
       req = {| PublishRequest.serial := serial;
                PublishRequest.path := TopicReport.path schema;
                PublishRequest.topic_key := TopicReport.key schema;
                PublishRequest.seq_no := seq_no;
                PublishRequest.topic_body := b |} /\
       fst (publish_topic_json d codec serial path seq_no body) =
         match publish_reply d req with
         | Ok PublishResponse.Sent => Ok tt
         | Ok (PublishResponse.OtherErr e) => Err (ClientError.Server e)
         | Err h => Err (from_host_err h)
         end) /\
  ((forall req, ~ In (RqPublish req) (snd (publish_topic_json d codec serial path seq_no body))) ->
     snd (publish_topic_json d codec serial path seq_no body) = [RqGetSchemas serial] /\
     (fst (publish_topic_json d codec serial path seq_no body) =
        Err (ClientError.Server "topic not found") \/
      fst (publish_topic_json d codec serial path seq_no body) =
        Err (ClientError.Dynamic "provided JSON does not match the schema for this topic"))).
Proof.
  unfold publish_topic_json, attempt. rewrite get_device_schemas_eq.
  destruct (schemas_reply d serial) as [[rep|]|h] eqn:Hs; cbn;
    [| split; [intros req H; in_requests H | intros _; auto] ..].
  destruct (find _ _) as [schema|] eqn:Fd; cbn;
    [| split; [intros req H; in_requests H | intros _; auto]].
  destruct (to_stdvec_dyn codec _ body) as [b|] eqn:Enc; cbn;
    [| split; [intros req H; in_requests H | intros _; auto]].
  split.
  - intros req H.
    destruct (publish_reply d _) as [[|e]|h'] eqn:P; cbn in *; in_requests H;
      injection H as <-; (split; [reflexivity|]);
      exists rep, schema, b; repeat split; try assumption; rewrite P; reflexivity.
  - intros Hno. exfalso.
    destruct (publish_reply d _) as [[|e]|h'] eqn:P; cbn in *;
      apply (Hno _ (or_intror (or_introl eq_refl))).
Qed.

(** X8 ([publish_topic::<T>]): the typed call publishes only to a
    topic-in of the report whose path and key are [T::PATH] and
    [T::TOPIC_KEY], with the message encoded by [postcard]; the reply is
    mapped as in [publish_topic_json]. When no publish request is sent,
    it fails with [Server("topic not found")] or [Encoding]. *)
Theorem publish_topic_outcome {NamedType} (d : @Daemon NamedType) {Msg} (T : Topic Msg)
  (enc : Msg -> option (list byte)) serial seq_no body :
  (forall req, In (RqPublish req) (snd (publish_topic d T enc serial seq_no body)) ->
     snd (publish_topic d T enc serial seq_no body) = [RqGetSchemas serial; RqPublish req] /\
     exists rep schema b,
       schemas_reply d serial = Ok (Some rep) /\
       In schema (SchemaReport.topics_in rep) /\
       TopicReport.path schema = TPATH _ T /\ TopicReport.key schema = TOPIC_KEY _ T /\
       enc body = Some b /\
       req = {| PublishRequest.serial := serial;
                PublishRequest.path := TPATH _ T;
                PublishRequest.topic_key := TOPIC_KEY _ T;
                PublishRequest.seq_no := seq_no;
                PublishRequest.topic_body := b |} /\
       fst (publish_topic d T enc serial seq_no body) =
         match publish_reply d req with
         | Ok PublishResponse.Sent => Ok tt
         | Ok (PublishResponse.OtherErr e) => Err (ClientError.Server e)
         | Err h => Err (from_host_err h)
         end) /\
  ((forall req, ~ In (RqPublish req) (snd (publish_topic d T enc serial seq_no body))) ->
     snd (publish_topic d T enc serial seq_no body) = [RqGetSchemas serial] /\
     (fst (publish_topic d T enc serial seq_no body) =
        Err (ClientError.Server "topic not found") \/
      fst (publish_topic d T enc serial seq_no body) = Err ClientError.Encoding)).
Proof.
  unfold publish_topic, attempt. rewrite get_device_schemas_eq.
  destruct (schemas_reply d serial) as [[rep|]|h] eqn:Hs; cbn;
    [| split; [intros req H; in_requests H | intros _; auto] ..].
  destruct (find _ _) as [schema|] eqn:Fd; cbn;
    [| split; [intros req H; in_requests H | intros _; auto]].
  apply find_some in Fd as [Hin Hm].
  apply andb_prop in Hm as [Hp Hk]. apply String.eqb_eq in Hp. apply key_eqb_true in Hk.
  destruct (enc body) as [b|] eqn:Enc; cbn;
    [| split; [intros req H; in_requests H | intros _; auto]].
  split.
  - intros req H.
    destruct (publish_reply d _) as [[|e]|h'] eqn:P; cbn in *; in_requests H;
      injection H as <-; (split; [reflexivity|]);
      exists rep, schema, b; rewrite Hp, Hk in *; repeat split; try assumption;
      rewrite P; reflexivity.
  - intros Hno. exfalso.
    destruct (publish_reply d _) as [[|e]|h'] eqn:P; cbn in *;
      apply (Hno _ (or_intror (or_introl eq_refl))).
Qed.

(** X9 ([stream_topic_json]): a [StartStream] request is sent only as the
    second and last request, after a fanout subscription was registered,
    for the first topic-out of the report with the given path: it carries
    the serial, the path and that topic's key. A [Started(id)] reply gives
    a listener for stream [id] and that topic; the other replies become
    [Server("Device Disconnected")], [Server("No Device Known")] and
    [Server("No Such Topic")]. When no [StartStream] is sent, the call
    fails with [Server("topic not found")], or with [ConnectionClosed]
    when the subscription could not be registered. *)
Theorem stream_topic_json_outcome {NamedType} (d : @Daemon NamedType) serial path :
  (forall req, In (RqStartStream req) (snd (stream_topic_json d serial path)) ->
     snd (stream_topic_json d serial path) = [RqGetSchemas serial; RqStartStream req] /\
     subscribe_multi_ok d = true /\
     exists rep schema,
       schemas_reply d serial = Ok (Some rep) /\
       find (fun t => String.eqb (TopicReport.path t) path)
            (SchemaReport.topics_out rep) = Some schema /\
       req = {| TopicStreamRequest.serial := serial; TopicStreamRequest.path := path;
                TopicStreamRequest.key := TopicReport.key schema |} /\
       fst (stream_topic_json d serial path) =
         match start_reply d req with
         | Ok (TopicStreamResult.Started id) => Ok {| jl_stream_id := id; jl_schema := schema |}
         | Ok TopicStreamResult.DeviceDisconnected => Err (ClientError.Server "Device Disconnected")
         | Ok TopicStreamResult.NoDeviceKnown => Err (ClientError.Server "No Device Known")
         | Ok TopicStreamResult.NoSuchTopic => Err (ClientError.Server "No Such Topic")
         | Err h => Err (from_host_err h)
         end) /\
  ((forall req, ~ In (RqStartStream req) (snd (stream_topic_json d serial path))) ->
     snd (stream_topic_json d serial path) = [RqGetSchemas serial] /\
     (fst (stream_topic_json d serial path) = Err (ClientError.Server "topic not found") \/
      (fst (stream_topic_json d serial path) = Err ClientError.ConnectionClosed /\
       subscribe_multi_ok d = false))).
Proof.
  unfold stream_topic_json, attempt. rewrite get_device_schemas_eq.
  destruct (schemas_reply d serial) as [[rep|]|h] eqn:Hs; cbn;
    [| split; [intros req H; in_requests H | intros _; auto] ..].
  destruct (find _ _) as [schema|] eqn:Fd; cbn;
    [| split; [intros req H; in_requests H | intros _; auto]].
  unfold subscribe_multi. destruct (subscribe_multi_ok d) eqn:Sub; cbn;
    [| split; [intros req H; in_requests H | intros _; auto]].
  split.
  - intros req H.
    destruct (start_reply d _) as [[id| | |]|h'] eqn:P; cbn in *; in_requests H;
      injection H as <-; (split; [reflexivity|]); (split; [reflexivity|]);
      exists rep, schema; repeat split; try assumption; rewrite P; reflexivity.
  - intros Hno. exfalso.
    destruct (start_reply d _) as [[id| | |]|h'] eqn:P; cbn in *;
      apply (Hno _ (or_intror (or_introl eq_refl))).
Qed.

(** X10 ([stream_topic::<T>]): the typed call starts a stream only for a
    topic-out of the report whose path and key are [T::PATH] and
    [T::TOPIC_KEY], with a request carrying the serial, [T::PATH] and
    [T::TOPIC_KEY]; the replies are mapped as in [stream_topic_json]. *)
Theorem stream_topic_outcome {NamedType} (d : @Daemon NamedType) {Msg} (T : Topic Msg) serial :
  (forall req, In (RqStartStream req) (snd (stream_topic d T serial)) ->
     snd (stream_topic d T serial) = [RqGetSchemas serial; RqStartStream req] /\
     subscribe_multi_ok d = true /\
     (exists rep schema,
       schemas_reply d serial = Ok (Some rep) /\ In schema (SchemaReport.topics_out rep) /\
       TopicReport.path schema = TPATH _ T /\ TopicReport.key schema = TOPIC_KEY _ T) /\
     req = {| TopicStreamRequest.serial := serial; TopicStreamRequest.path := TPATH _ T;
              TopicStreamRequest.key := TOPIC_KEY _ T |} /\
     fst (stream_topic d T serial) =
       match start_reply d req with
       | Ok (TopicStreamResult.Started id) => Ok {| sl_stream_id := id |}
       | Ok TopicStreamResult.DeviceDisconnected => Err (ClientError.Server "Device Disconnected")
       | Ok TopicStreamResult.NoDeviceKnown => Err (ClientError.Server "No Device Known")
       | Ok TopicStreamResult.NoSuchTopic => Err (ClientError.Server "No Such Topic")
       | Err h => Err (from_host_err h)
       end) /\
  ((forall req, ~ In (RqStartStream req) (snd (stream_topic d T serial))) ->
     snd (stream_topic d T serial) = [RqGetSchemas serial] /\
     (fst (stream_topic d T serial) = Err (ClientError.Server "topic not found") \/
      (fst (stream_topic d T serial) = Err ClientError.ConnectionClosed /\
       subscribe_multi_ok d = false))).
Proof.
  unfold stream_topic, attempt. rewrite get_device_schemas_eq.
  destruct (schemas_reply d serial) as [[rep|]|h] eqn:Hs; cbn;
    [| split; [intros req H; in_requests H | intros _; auto] ..].
  destruct (find _ _) as [schema|] eqn:Fd; cbn;
    [| split; [intros req H; in_requests H | intros _; auto]].
  apply find_some in Fd as [Hin Hm].
  apply andb_prop in Hm as [Hp Hk]. apply String.eqb_eq in Hp. apply key_eqb_true in Hk.
  unfold subscribe_multi. destruct (subscribe_multi_ok d) eqn:Sub; cbn;
    [| split; [intros req H; in_requests H | intros _; auto]].
  split.
  - intros req H.
    destruct (start_reply d _) as [[id| | |]|h'] eqn:P; cbn in *; in_requests H;
      injection H as <-; (split; [reflexivity|]); (split; [reflexivity|]);
      (split; [exists rep, schema; auto|]); rewrite Hk; (split; [reflexivity|]);
      rewrite <- Hk, P; reflexivity.
  - intros Hno. exfalso.
    destruct (start_reply d _) as [[id| | |]|h'] eqn:P; cbn in *;
      apply (Hno _ (or_intror (or_introl eq_refl))).
Qed.

Lemma collect_dyn_ok {NamedType Value} (codec : @DynCodec NamedType Value) ty raws res :
  collect_dyn codec ty raws = Ok res <->
  Forall2 (fun tm r => fst r = TopicMsg.uuidv7 tm /\
                       from_slice_dyn codec ty (TopicMsg.msg tm) = Ok (snd r)) raws res.
Proof.
  revert res. induction raws as [|tm raws IH]; intros res; cbn.
  - split; [intros H; injection H as <-; constructor | intros H; inversion H; reflexivity].
  - destruct (from_slice_dyn codec ty (TopicMsg.msg tm)) as [v|e] eqn:F.
    + destruct (collect_dyn codec ty raws) as [res'|e] eqn:C.
      * split.
        -- intros H. injection H as <-. constructor; [auto | apply IH; reflexivity].
        -- intros H. inversion H as [|tm' r raws' res'' [Hf Hs] Hrest]; subst.
           apply IH in Hrest. injection Hrest as ->.
           rewrite F in Hs. injection Hs as ->. destruct r; cbn in *; subst; reflexivity.
      * split; [discriminate|].
        intros H. inversion H as [|tm' r raws' res'' _ Hrest]; subst.
        apply IH in Hrest. discriminate.
    + split; [discriminate|].
      intros H. inversion H as [|tm' r raws' res'' [_ Hs] _]; subst. congruence.
Qed.

Lemma collect_dyn_cases {NamedType Value} (codec : @DynCodec NamedType Value) ty raws :
  collect_dyn codec ty raws = Err ClientError.Encoding \/
  exists res, collect_dyn codec ty raws = Ok res.
Proof.
  induction raws as [|tm raws IH]; cbn; [right; eexists; reflexivity|].
  destruct (from_slice_dyn codec ty (TopicMsg.msg tm)); [|left; reflexivity].
  destruct IH as [-> | [res ->]]; [left | right; eexists]; reflexivity.
Qed.

(** X11 ([get_device_topics_out_by_path_json] against
    [get_device_topics_out_by_path_raw]): both send the same requests, and
    the JSON call fails or finds nothing exactly where the raw one does.
    When the raw call returns stored messages, those were fetched with the
    key of the first topic-out of the report with the given path, and the
    JSON call returns [Ok(Some(res))] exactly when [res] holds every raw
    message's uuid, in order, with its bytes decoded against that topic's
    type; otherwise it fails with [Encoding]. *)
Theorem topics_json_follows_raw {NamedType Value} (d : @Daemon NamedType)
  (codec : @DynCodec NamedType Value) serial path count :
  snd (get_device_topics_out_by_path_json d codec serial path count) =
    snd (get_device_topics_out_by_path_raw d serial path count) /\
  (forall e, fst (get_device_topics_out_by_path_raw d serial path count) = Err e ->
             fst (get_device_topics_out_by_path_json d codec serial path count) = Err e) /\
  (fst (get_device_topics_out_by_path_raw d serial path count) = Ok None ->
   fst (get_device_topics_out_by_path_json d codec serial path count) = Ok None) /\
  (forall raws, fst (get_device_topics_out_by_path_raw d serial path count) = Ok (Some raws) ->
     exists rep t,
       schemas_reply d serial = Ok (Some rep) /\
       find (fun t => String.eqb (TopicReport.path t) path)
            (SchemaReport.topics_out rep) = Some t /\
       topics_reply d {| TopicRequest.serial := serial; TopicRequest.path := path;
                         TopicRequest.key := TopicReport.key t;
                         TopicRequest.count := count |} = Ok (Some raws) /\
       (forall res,
          fst (get_device_topics_out_by_path_json d codec serial path count) = Ok (Some res) <->
          Forall2 (fun tm r => fst r = TopicMsg.uuidv7 tm /\
                     from_slice_dyn codec (TopicReport.ty t) (TopicMsg.msg tm) = Ok (snd r))
                  raws res) /\
       (fst (get_device_topics_out_by_path_json d codec serial path count) =
          Err ClientError.Encoding \/
        exists res, fst (get_device_topics_out_by_path_json d codec serial path count) =
          Ok (Some res))).
Proof.
  unfold get_device_topics_out_by_path_json, get_device_topics_out_by_path_raw.
  rewrite get_device_schemas_eq.
  destruct (schemas_reply d serial) as [[rep|]|h] eqn:Hs; cbn;
    [| repeat split; intros; congruence ..].
  destruct (find _ _) as [t|] eqn:Fd; cbn;
    [| repeat split; intros; congruence].
  destruct (topics_reply d _) as [[raws|]|h] eqn:Ht; cbn;
    [| repeat split; intros; congruence ..].
  destruct (collect_dyn codec (TopicReport.ty t) raws) as [res|e] eqn:C; cbn.
  - split; [reflexivity|]. split; [intros; discriminate|]. split; [intros; discriminate|].
    intros raws' H. injection H as <-. exists rep, t.
    split; [reflexivity|]. split; [exact Fd|]. split; [exact Ht|]. split.
    + intros res'. rewrite <- collect_dyn_ok, C. split; congruence.
    + right. eexists. reflexivity.
  - split; [reflexivity|]. split; [intros; discriminate|]. split; [intros; discriminate|].
    intros raws' H. injection H as <-. exists rep, t.
    split; [reflexivity|]. split; [exact Fd|]. split; [exact Ht|]. split.
    + intros res'. rewrite <- collect_dyn_ok, C. split; discriminate.
    + left. destruct (collect_dyn_cases codec (TopicReport.ty t) raws) as [E | [r E]];
        rewrite C in E; congruence.
Qed.

End ClientExtras.

(** ** The command line tool *)

Section CliExtras.
Import Icd Client Cli.
Local Open Scope N_scope.

Lemma filter_single {A} (f : A -> bool) (items : list A) (r : A) :
  filter f items = [r] <->
  exists pre post, items = pre ++ r :: post /\ f r = true /\
    Forall (fun x => f x = false) (pre ++ post).
Proof.
  split.
  - induction items as [|x items IH]; cbn; [discriminate|].
    destruct (f x) eqn:Fx.
    + intros H. injection H as -> Hnil. exists [], items.
      split; [reflexivity|]. split; [exact Fx|]. cbn.
      apply Forall_forall. intros y Hy. destruct (f y) eqn:Fy; [|reflexivity].
      assert (In y (filter f items)) by (apply filter_In; auto). rewrite Hnil in H. contradiction.
    + intros H. destruct (IH H) as (pre & post & -> & Hr & Hf).
      exists (x :: pre), post. split; [reflexivity|]. split; [exact Hr|].
      cbn. constructor; assumption.
  - intros (pre & post & -> & Hr & Hf). apply Forall_app in Hf as [Hpre Hpost].
    rewrite filter_app. cbn. rewrite Hr.
    assert (E : forall l, Forall (fun x => f x = false) l -> filter f l = []).
    { induction l as [|y l IHl]; intros Hl; [reflexivity|].
      inversion Hl; subst. cbn. rewrite H1. apply IHl. assumption. }
    rewrite (E pre Hpre), (E post Hpost). reflexivity.
Qed.

Lemma listen_silent {NamedType Value} (codec : @DynCodec NamedType Value) l ev evs f :
  ev <> IoClosed ->
  match ev with
  | SubMsg m =>
      if N.eqb (TopicStreamMsg.stream_id m) (jl_stream_id l)
      then match from_slice_dyn codec (TopicReport.ty (jl_schema l)) (TopicStreamMsg.msg m) with
           | Ok v => [v] | Err _ => [] end
      else []
  | _ => []
  end = [] ->
  listen codec (S f) l (ev :: evs) = listen codec (S f) l evs.
Proof.
  intros Hc Hs. destruct ev as [m|n|]; [| reflexivity | congruence].
  cbn. destruct (N.eqb _ _); cbn; [|reflexivity].
  destruct (from_slice_dyn _ _ _); [discriminate | reflexivity].
Qed.

(** The line printed by the listen loop for one event, if any: the
    message decoded against the topic's type, for a message of the
    listener's stream that decodes. *)
Local Abbreviation shown codec l := (fun ev =>
  match ev with
  | SubMsg m =>
      if N.eqb (TopicStreamMsg.stream_id m) (jl_stream_id l)
      then match from_slice_dyn codec (TopicReport.ty (jl_schema l)) (TopicStreamMsg.msg m) with
           | Ok v => [v] | Err _ => [] end
      else []
  | _ => []
  end).

Lemma listen_open {NamedType Value} (codec : @DynCodec NamedType Value) l evs : forall f,
  ~ In IoClosed evs -> (S (length evs) <= f)%nat ->
  listen codec f l evs = (flat_map (shown codec l) evs, false).
Proof.
  induction evs as [|ev evs IH]; intros f Hn Hf; (destruct f as [|f]; [lia|]);
    [reflexivity|].
  assert (Hev : ev <> IoClosed) by (intro E; apply Hn; left; congruence).
  assert (Hn' : ~ In IoClosed evs) by (intro E; apply Hn; right; exact E).
  cbn [length] in Hf.
  destruct (shown codec l ev) as [|v vs] eqn:Sh.
  - rewrite listen_silent by assumption. rewrite IH by (assumption || lia).
    cbn [flat_map]. rewrite Sh. reflexivity.
  - destruct ev as [m| |]; cbn in Sh; try discriminate.
    destruct (N.eqb _ _) eqn:E; [|discriminate].
    destruct (from_slice_dyn _ _ _) eqn:D; [|discriminate].
    injection Sh as <- <-.
    cbn [listen json_recv]. rewrite E. cbn [negb]. rewrite D.
    rewrite IH by (assumption || lia). cbn [flat_map]. rewrite E, D. reflexivity.
Qed.

Lemma listen_closed {NamedType Value} (codec : @DynCodec NamedType Value) l pre post : forall f,
  ~ In IoClosed pre -> (S (length pre) <= f)%nat ->
  listen codec f l (pre ++ IoClosed :: post) = (flat_map (shown codec l) pre, true).
Proof.
  induction pre as [|ev pre IH]; intros f Hn Hf; (destruct f as [|f]; [lia|]);
    [reflexivity|].
  assert (Hev : ev <> IoClosed) by (intro E; apply Hn; left; congruence).
  assert (Hn' : ~ In IoClosed pre) by (intro E; apply Hn; right; exact E).
  cbn [length] in Hf. rewrite <- app_comm_cons.
  destruct (shown codec l ev) as [|v vs] eqn:Sh.
  - rewrite listen_silent by assumption. rewrite IH by (assumption || lia).
    cbn [flat_map]. rewrite Sh. reflexivity.
  - destruct ev as [m| |]; cbn in Sh; try discriminate.
    destruct (N.eqb _ _) eqn:E; [|discriminate].
    destruct (from_slice_dyn _ _ _) eqn:D; [|discriminate].
    injection Sh as <- <-.
    cbn [listen json_recv]. rewrite E. cbn [negb]. rewrite D.
    rewrite IH by (assumption || lia). cbn [flat_map]. rewrite E, D. reflexivity.
Qed.

(** X12 ([device_smart_listen]): the listen loop prints, in order, exactly
    the messages of the listener's stream that decode against the topic's
    type, skipping lag notices, other streams' messages and undecodable
    ones. It prints "Closed" and stops at the first close of the
    subscription, ignoring what follows; until then it keeps waiting. *)
Theorem listen_prints {NamedType Value} (codec : @DynCodec NamedType Value)
  (l : @JsonStreamListener NamedType) (pre post : list SubEvent) :
  ~ In IoClosed pre ->
  listen codec (S (length pre)) l pre = (flat_map (shown codec l) pre, false) /\
  listen codec (S (length (pre ++ IoClosed :: post))) l (pre ++ IoClosed :: post) =
    (flat_map (shown codec l) pre, true).
Proof.
  intros Hn. split.
  - apply listen_open; [exact Hn | lia].
  - apply listen_closed; [exact Hn | rewrite length_app; cbn [length]; lia].
Qed.

Lemma listen_prints_witness :
  listen Samples.codec 7 {| jl_stream_id := 7; jl_schema := Samples.temp_topic |}
    [SubMsg {| TopicStreamMsg.stream_id := 7; TopicStreamMsg.msg := [x03] |};
     Lagged 2;
     SubMsg {| TopicStreamMsg.stream_id := 8; TopicStreamMsg.msg := [x04] |};
     SubMsg {| TopicStreamMsg.stream_id := 7; TopicStreamMsg.msg := [x00] |};
     SubMsg {| TopicStreamMsg.stream_id := 7; TopicStreamMsg.msg := [x05] |};
     IoClosed;
     SubMsg {| TopicStreamMsg.stream_id := 7; TopicStreamMsg.msg := [x06] |}] =
    ([3%nat; 5%nat], true).
Proof.
  refine (eq_trans (proj2 (listen_prints Samples.codec
    {| jl_stream_id := 7; jl_schema := Samples.temp_topic |}
    [SubMsg {| TopicStreamMsg.stream_id := 7; TopicStreamMsg.msg := [x03] |};
     Lagged 2;
     SubMsg {| TopicStreamMsg.stream_id := 8; TopicStreamMsg.msg := [x04] |};
     SubMsg {| TopicStreamMsg.stream_id := 7; TopicStreamMsg.msg := [x00] |};
     SubMsg {| TopicStreamMsg.stream_id := 7; TopicStreamMsg.msg := [x05] |}]
    [SubMsg {| TopicStreamMsg.stream_id := 7; TopicStreamMsg.msg := [x06] |}] _)) _).
  - simpl. intuition discriminate.
  - reflexivity.
Defined.

(** X13 ([fuzzy_endpoint_match], [fuzzy_topic_out_match],
    [fuzzy_topic_in_match]): a report is selected exactly when it is the
    only entry of the list whose path contains the given fragment. With
    no such entry the call fails with "No <kind> found matching
    '<fragment>'"; with two or more it fails with "Too many matches, be
    more specific!" after printing all of them, so a path is ambiguous
    as soon as another listed path contains it. *)
Theorem fuzzy_match_outcome {R} (what : string) (path_of : R -> string)
  (path : string) (items : list R) :
  (forall r, fst (fuzzy_match what path_of path items) = Ok r <->
     exists pre post, items = pre ++ r :: post /\ contains (path_of r) path = true /\
       Forall (fun x => contains (path_of x) path = false) (pre ++ post)) /\
  (Forall (fun x => contains (path_of x) path = false) items ->
     fuzzy_match what path_of path items =
       (Err ("No " ++ what ++ " found matching '" ++ path ++ "'")%string, [])) /\
  (forall pre r1 mid r2 post, items = pre ++ r1 :: mid ++ r2 :: post ->
     contains (path_of r1) path = true -> contains (path_of r2) path = true ->
     fst (fuzzy_match what path_of path items) =
       Err "Too many matches, be more specific!"%string /\
     snd (fuzzy_match what path_of path items) =
       filter (fun x => contains (path_of x) path) items /\
     In r1 (snd (fuzzy_match what path_of path items)) /\
     In r2 (snd (fuzzy_match what path_of path items))).
Proof.
  unfold fuzzy_match. split; [|split].
  - intros r.
    pose proof (filter_single (fun x => contains (path_of x) path) items r) as FS.
    cbv beta in FS. rewrite <- FS.
    destruct (filter _ items) as [|x [|y rest]]; cbn.
    + split; discriminate.
    + split; congruence.
    + split; discriminate.
  - intros Hf.
    assert (E : filter (fun x => contains (path_of x) path) items = []).
    { induction items as [|y l IHl]; [reflexivity|].
      inversion Hf; subst. cbn. rewrite H1. apply IHl. assumption. }
    rewrite E. reflexivity.
  - intros pre r1 mid r2 post -> H1 H2.
    assert (In r1 (filter (fun x => contains (path_of x) path) (pre ++ r1 :: mid ++ r2 :: post)))
      as I1 by (apply filter_In; split; [apply in_or_app; right; left |]; auto).
    assert (In r2 (filter (fun x => contains (path_of x) path) (pre ++ r1 :: mid ++ r2 :: post)))
      as I2 by (apply filter_In; split;
                [apply in_or_app; right; right; apply in_or_app; right; left |]; auto).
    assert (Hlen : (2 <= length (filter (fun x => contains (path_of x) path)
                                   (pre ++ r1 :: mid ++ r2 :: post)))%nat).
    { rewrite filter_app, length_app. cbn. rewrite H1. cbn.
      rewrite filter_app, length_app. cbn. rewrite H2. cbn. lia. }
    destruct (filter _ _) as [|x [|y rest]]; cbn in Hlen; try lia.
    cbn. auto.
Qed.

Lemma fuzzy_match_outcome_witness :
  fst (fuzzy_topic_out_match "led"
         {| SchemaReport.topics_in := [];
            SchemaReport.topics_out :=
              [{| TopicReport.path := "led"; TopicReport.key := Samples.key_a;
                  TopicReport.ty := tt |};
               {| TopicReport.path := "led/set"; TopicReport.key := Samples.key_b;
                  TopicReport.ty := tt |}];
            SchemaReport.endpoints := [] |}) =
    Err "Too many matches, be more specific!"%string.
Proof.
  refine (proj1 (proj2 (proj2 (fuzzy_match_outcome "topic-out" (@TopicReport.path unit) "led"
    [{| TopicReport.path := "led"; TopicReport.key := Samples.key_a; TopicReport.ty := tt |};
     {| TopicReport.path := "led/set"; TopicReport.key := Samples.key_b; TopicReport.ty := tt |}]))
    [] _ [] _ [] eq_refl _ _)).
  - reflexivity.
  - reflexivity.
Defined.

End CliExtras.

(** ** Connecting: which step an error comes from *)

Section ConnectExtras.
Import Icd Connect.
Local Open Scope N_scope.

(** X14 ([connect_with_ca_pem], [connect_insecure]): [CaCertificate] is
    returned exactly when the CA certificate cannot be loaded, and then no
    TCP connection has been opened. [Connection] is returned exactly when
    the certificate is fine but the TCP connection, a socket setting, the
    peer address or the TLS handshake fails. [connect_insecure] never
    returns [CaCertificate], and returns [Connection] exactly when one of
    its steps before the ping fails. *)
Theorem connect_error_stage (env : Env) :
  (result (connect_with_ca_pem env) = Err ConnectError.CaCertificate <->
     ca_cert_ok env = false) /\
  (result (connect_with_ca_pem env) = Err ConnectError.CaCertificate ->
     socket (connect_with_ca_pem env) = None) /\
  (result (connect_with_ca_pem env) = Err ConnectError.Connection <->
     ca_cert_ok env = true /\ pipe_with_ca_pem env = false) /\
  result (connect_insecure env) <> Err ConnectError.CaCertificate /\
  (result (connect_insecure env) = Err ConnectError.Connection <->
     pipe_insecure env = false).
Proof.
  unfold connect_with_ca_pem, connect_insecure, pipe_with_ca_pem, pipe_insecure,
    ping_check, fail_with.
  destruct (ca_cert_ok env), (tcp_connect_ok env), (set_nodelay_ok env),
    (peer_addr_ok env), (tls_connect_ok env);
    cbn; try (destruct (ping_reply env 42) as [r|h]; cbn;
              try destruct (N.eqb r 42); cbn);
    repeat split; intros; try discriminate; try reflexivity;
    try (destruct H; discriminate).
Qed.

End ConnectExtras.
